(** * Tanuki-Parser: dictionary trie, Viterbi segmentation, recombination

    A shallow embedding of [core/trie.js] and [core/viterbi.js].

    Conventions of the embedding.
    - A JavaScript string is the list of its UTF-16 code units ([N]);
      [text[i]] is the code unit at index [i], [text.length] is [length].
    - A JavaScript number is an IEEE 754 binary64 value: Rocq's primitive
      [float].  [Math.log] is implementation-approximated in ECMAScript, so
      the development is parametric in it (a Section variable).
    - Objects used as dictionaries ([posMap], [transitionMap], the rows of
      the Viterbi table) are finite maps of their own properties; a property
      read [o[k]] goes through the prototype chain ([read]): it yields the
      own property, or else what [Object.prototype] holds under that name,
      or else [undefined].  The keys of a trie node are single code units,
      which name no inherited property; the recombiner only reads
      [recombinationMap] at the tags of stored tokens, which name none
      either ([Path_key_own]).  A row of the Viterbi table is also
      enumerated with [for ... in], which visits own properties only
      (those of [Object.prototype] are not enumerable), so it is kept as an
      association list in insertion order.
    - [None] is an uncaught [TypeError]; in [proposeTag] it also stands for
      the one read that the embedding does not follow ([TPForeign]), which
      no call of the entry point makes.
    - [viterbiTable] is an array: a list updated by index; indexing past its
      end and then reading a property is a [TypeError]. *)

From Stdlib Require Import Floats.PrimFloat Floats.SpecFloat Floats.FloatAxioms.
From stdpp Require Import gmap list strings sorting.

#[local] Set Warnings "-inexact-float,-register-all,-clear-no-such-hyp".
#[local] Open Scope nat_scope.

(** ** Strings *)

Abbreviation jsstring := (list N).

(** [text.slice(i, j)] for [0 <= i] and [0 <= j]. *)
Definition slice (s : jsstring) (i j : nat) : jsstring := take (j - i) (drop i s).

(** [/\s/.test(c)] for a single code unit: ECMAScript's WhiteSpace and
    LineTerminator code points. *)
Definition is_ws (c : N) : bool :=
  ((c =? 9) || (c =? 10) || (c =? 11) || (c =? 12) || (c =? 13) || (c =? 32)
   || (c =? 160) || (c =? 5760) || ((8192 <=? c) && (c <=? 8202))
   || (c =? 8232) || (c =? 8233) || (c =? 8239) || (c =? 8287)
   || (c =? 12288) || (c =? 65279))%N.

(** The code units of an ASCII literal. *)
Definition js (s : string) : jsstring :=
  (λ a, N.of_nat (Ascii.nat_of_ascii a)) <$> String.list_ascii_of_string s.

(** ** Data model *)

(** A dictionary entry [{ morph, pos }]. *)
Record DictEntry := mkDictEntry { entry_morph : jsstring; entry_pos : jsstring }.

(** A trie node [{ ismorph, children }]; the root is a bare children map. *)
Inductive TrieNode := mkNode { ismorph : bool; children : gmap N TrieNode }.

Abbreviation Trie := (gmap N TrieNode).

(** A trie match [{ morph, end }]. *)
Record Found := mkFound { found_morph : jsstring; found_end : nat }.

(** ** trie.js *)

(** One pass of the inner loop of [buildMorphTrie] over the characters of a
    morph, from the node map [node]. *)
Fixpoint insertMorph (chars : jsstring) (node : Trie) : Trie :=
  match chars with
  | [] => node
  | ch :: rest =>
      let n0 := default (mkNode false ∅) (node !! ch) in
      let n1 := if bool_decide (rest = []) then mkNode true (children n0) else n0 in
      <[ch := mkNode (ismorph n1) (insertMorph rest (children n1))]> node
  end.

Definition buildMorphTrie (morphs : list DictEntry) : Trie :=
  foldl (λ root m, insertMorph (entry_morph m) root) ∅ morphs.

(** The [while] loop of [findMorphsFromTrie]: [rest] is [text] from [idx]. *)
Fixpoint walkTrie (node : Trie) (text : jsstring) (start idx : nat)
    (rest : jsstring) (found : list Found) : list Found :=
  match rest with
  | [] => found
  | c :: rest' =>
      match node !! c with
      | None => found
      | Some n =>
          let found' :=
            if ismorph n
            then found ++ [mkFound (slice text start (idx + 1)) (idx + 1)]
            else found in
          walkTrie (children n) text start (idx + 1) rest' found'
      end
  end.

Definition findMorphsFromTrie (trie : Trie) (text : jsstring) (start : nat) : list Found :=
  walkTrie trie text start start (drop start text) [].

(** [w] is a morph of the trie: the path spelled by [w] from the root ends
    in a node flagged [ismorph]. *)
Fixpoint trie_mem (node : Trie) (w : jsstring) : bool :=
  match w with
  | [] => false
  | c :: w' =>
      match node !! c with
      | None => false
      | Some n => if bool_decide (w' = []) then ismorph n else trie_mem (children n) w'
      end
  end.

(** ** Tokens, states, words (viterbi.js) *)

(** The [type] field of a token: ["text"], ["whitespace"] or ["skipped"]. *)
Inductive TokenType := KText | KWhitespace | KSkipped.

Record Token := mkToken {
  morph : jsstring;
  pos : jsstring;
  type : TokenType;
  transProb : float
}.

(** A table entry [{ score, backPointer, token }].  Entries are never mutated
    after they are created (a better path replaces the entry by a new
    object), so the object a back pointer refers to is its value. *)
Inductive State := mkState {
  score : float;
  backPointer : option State;
  token : option Token
}.

(** A word [{ tokens: [...] }]. *)
Record Word := mkWord { tokens : list Token }.

(** [viterbiTable[i]]: an object from PoS tag to state, in insertion order. *)
Abbreviation Row := (list (jsstring * State)).
Abbreviation Table := (list Row).

Abbreviation PosMap := (gmap jsstring (list jsstring)).
Abbreviation TransitionMap := (gmap jsstring (gmap jsstring float)).
Abbreviation RecombinationMap := (gmap jsstring (list jsstring)).

#[global] Instance TokenType_eq_dec : EqDecision TokenType.
Proof. solve_decision. Defined.

(** ** JavaScript values *)

(** Truthiness of a number: [0], [-0] and [NaN] are falsy. *)
Definition truthy (x : float) : bool := (negb (x =? 0) && (x =? x))%float.

(** Truthiness of a string: only the empty string is falsy. *)
Definition nonempty (s : jsstring) : bool := negb (bool_decide (s = [])).

(** ** Property reads through the prototype chain *)

(** The names of the properties of [Object.prototype] (ECMA-262, 20.1.3
    and Annex B.2.2).  Every object written as a literal or parsed from
    JSON inherits them. *)
Definition proto_names : list jsstring :=
  js <$> ["constructor"; "hasOwnProperty"; "isPrototypeOf"; "propertyIsEnumerable";
          "toLocaleString"; "toString"; "valueOf"; "__proto__";
          "__defineGetter__"; "__defineSetter__"; "__lookupGetter__";
          "__lookupSetter__"]%string.

Definition inherited (k : jsstring) : bool := bool_decide (k ∈ proto_names).

(** What [o[k]] yields on an object whose own properties hold values of
    type [A]: the own property; or the property of [Object.prototype], a
    function (for [__proto__], the prototype itself), which is truthy, is
    not a number, has no property [score] or [pos]; or [undefined]. *)
Inductive Read (A : Type) :=
| Own (a : A)
| Inherited
| Undefined.

Arguments Own {A} a.
Arguments Inherited {A}.
Arguments Undefined {A}.

Definition read {A : Type} (o : gmap jsstring A) (k : jsstring) : Read A :=
  match o !! k with
  | Some a => Own a
  | None => if inherited k then Inherited else Undefined
  end.

(** ** Rows: property read, property write, [for ... in] order *)

(** The own property [k] of a row. *)
Fixpoint row_get (row : Row) (k : jsstring) : option State :=
  match row with
  | [] => None
  | (k', v) :: row' => if bool_decide (k' = k) then Some v else row_get row' k
  end.

(** [row[k]]. *)
Definition row_read (row : Row) (k : jsstring) : Read State :=
  match row_get row k with
  | Some s => Own s
  | None => if inherited k then Inherited else Undefined
  end.

(** [row[k] = v]: an existing property keeps its place, a new one goes last. *)
Fixpoint row_set (row : Row) (k : jsstring) (v : State) : Row :=
  match row with
  | [] => [(k, v)]
  | (k', v') :: row' =>
      if bool_decide (k' = k) then (k, v) :: row' else (k', v') :: row_set row' k v
  end.

Definition digit_val (c : N) : option N :=
  if ((48 <=? c) && (c <=? 57))%N then Some (c - 48)%N else None.

Fixpoint parse_digits (acc : N) (s : jsstring) : option N :=
  match s with
  | [] => Some acc
  | c :: s' => d ← digit_val c; parse_digits (10 * acc + d)%N s'
  end.

(** The array index a property key denotes, if it is a canonical numeric
    string below [2^32 - 1]. *)
Definition array_index (k : jsstring) : option N :=
  match k with
  | [] => None
  | c :: k' =>
      if ((c =? 48)%N && nonempty k') then None
      else n ← parse_digits 0 k; if (n <? 4294967295)%N then Some n else None
  end.

Fixpoint insert_by_index (x : N * jsstring) (l : list (N * jsstring)) : list (N * jsstring) :=
  match l with
  | [] => [x]
  | y :: l' => if (x.1 <=? y.1)%N then x :: l else y :: insert_by_index x l'
  end.

Definition sort_by_index (l : list (N * jsstring)) : list (N * jsstring) :=
  foldr insert_by_index [] l.

(** The keys a [for (const k in row)] visits: array indices in ascending
    order, then the other keys in insertion order. *)
Definition forin_keys (row : Row) : list jsstring :=
  (sort_by_index (omap (λ k, n ← array_index k; Some (n, k)) row.*1)).*2
  ++ filter (λ k, array_index k = None) row.*1.

(** The state the table owns at position [i] under the key [k]. *)
Definition cell (viterbiTable : Table) (i : nat) (k : jsstring) : option State :=
  viterbiTable !! i ≫= (λ row, row_get row k).

(** A loop whose body may throw. *)
Fixpoint for_each {A S : Type} (l : list A) (body : A → S → option S) (s : S) : option S :=
  match l with
  | [] => Some s
  | x :: l' => s' ← body x s; for_each l' body s'
  end.

(** ** viterbi.js: the table update *)

(** The test reads [viterbiTable[nextIdx][nextPos]] through the prototype
    chain: under a name of [Object.prototype] that the row does not own it
    finds a truthy value whose [score] is [undefined], and
    [undefined < newScore] is false. *)
Definition updateViterbiTable (viterbiTable : Table) (nextIdx : nat) (nextPos : jsstring)
    (prevState : State) (tok : Token) (addScore : float)
    (lastPos : jsstring) (prevIdx : nat) : option Table :=
  let newScore := (score prevState + addScore)%float in
  row ← viterbiTable !! nextIdx;
  let overwrite :=
    match row_read row nextPos with
    | Undefined => true
    | Inherited => false
    | Own old => (score old <? newScore)%float
    end in
  if overwrite
  then Some (<[nextIdx := row_set row nextPos (mkState newScore (Some prevState) (Some tok))]>
               viterbiTable)
  else Some viterbiTable.

(** What the forward pass leaves in [transProb] for a dictionary proposal:
    a number; or, when [transitionMap[prevPos]] owns no [posTag] and
    [posTag] names a property of [Object.prototype], that inherited
    function; or, when [transitionMap] owns no [prevPos] and [prevPos]
    names a property of [Object.prototype], whatever that inherited
    function holds under [posTag], which the embedding does not follow. *)
Inductive TransProb :=
| TPNumber (p : float)
| TPInherited
| TPForeign.

Definition transitionProb (transitionMap : TransitionMap) (prevPos posTag : jsstring)
    : TransProb :=
  if nonempty prevPos then
    match read transitionMap prevPos with
    | Own next =>
        match read next posTag with
        | Own p => if truthy p then TPNumber p else TPNumber 1e-8%float
        | Inherited => TPInherited
        | Undefined => TPNumber 1e-8%float
        end
    | Inherited => TPForeign
    | Undefined => TPNumber 1e-8%float
    end
  else TPNumber 1.0%float.

(** [posMap[morph] ? posMap[morph].pos : []].  An inherited value is truthy
    and has no [pos]: [posTags] is [undefined], and the loop that follows
    throws on [posTags.length]. *)
Definition posTags (posMap : PosMap) (m : jsstring) : option (list jsstring) :=
  match read posMap m with
  | Own tags => Some tags
  | Inherited => None
  | Undefined => Some []
  end.

(** The inner [while] of the whitespace rule: [rest] is [text] from [endIdx]. *)
Fixpoint wsRunEnd (rest : jsstring) (endIdx : nat) : nat :=
  match rest with
  | [] => endIdx
  | c :: rest' => if is_ws c then wsRunEnd rest' (endIdx + 1) else endIdx
  end.

(** ** viterbi.js: recombination *)

Definition is_text (t : Token) : bool := bool_decide (type t = KText).

(** The [merged] flag after the [for ... of] loop at cursor [i]. *)
Definition mergedAt (toks : list Token) (recombinationMap : RecombinationMap) (i : nat) : bool :=
  match toks !! i with
  | None => false
  | Some cur =>
      nonempty (pos cur) &&
      match recombinationMap !! pos cur with
      | None => false
      | Some successors =>
          existsb (λ nextPos,
            match toks !! (i + 1) with
            | None => false
            | Some next => bool_decide (pos next = nextPos) && is_text cur && is_text next
            end) successors
      end
  end.

(** One iteration of the [while] loop of [recombineTokens], from cursor [i]
    with [result] emitted so far.  The loop guard gives [i < tokens.length],
    so [tokens[i]] is a token. *)
Definition recombineStep (toks : list Token) (recombinationMap : RecombinationMap)
    (i : nat) (result : list Word) : nat * list Word :=
  match toks !! i with
  | None => (i + 1, result)
  | Some cur =>
      match mergedAt toks recombinationMap i, toks !! (i + 1) with
      | true, Some next => (i + 2, result ++ [mkWord [cur; next]])
      | _, _ => (i + 1, result ++ [mkWord [cur]])
      end
  end.

Fixpoint recombineLoop (fuel : nat) (toks : list Token) (recombinationMap : RecombinationMap)
    (i : nat) (result : list Word) : list Word :=
  match fuel with
  | 0 => result
  | S fuel' =>
      if decide (i < length toks)
      then let '(i', result') := recombineStep toks recombinationMap i result in
           recombineLoop fuel' toks recombinationMap i' result'
      else result
  end.

(** Every iteration advances the cursor, so [length toks] iterations exhaust
    the loop (see [recombineLoop_fuel]). *)
Definition recombineTokens (toks : list Token) (recombinationMap : RecombinationMap) : list Word :=
  recombineLoop (length toks) toks recombinationMap 0 [].

(** ** viterbi.js: the forward pass, the best end state, the backtrace *)

Definition initTable (text : jsstring) : Table :=
  <[0 := [([], mkState 0%float None None)]]> (replicate (length text + 1) []).

(** The best end state: the first entry, or a later one with a strictly
    greater score. *)
Definition pickBest (row : Row) : option State :=
  foldl (λ best posTag,
    match row_get row posTag with
    | None => best
    | Some cand =>
        match best with
        | None => Some cand
        | Some b => if (score b <? score cand)%float then Some cand else best
        end
    end) None (forin_keys row).

(** [viterbiTable[text.length]]. *)
Definition lastRow (text : jsstring) (viterbiTable : Table) : Row :=
  default [] (viterbiTable !! length text).

(** [while (state && state.token) { tokens.push(state.token); state = state.backPointer }]. *)
Fixpoint collectTokens (state : State) : list Token :=
  match state with
  | mkState _ bp (Some t) =>
      t :: match bp with Some s => collectTokens s | None => [] end
  | mkState _ _ None => []
  end.

Definition backtrace (best : option State) : list Token :=
  reverse (from_option collectTokens [] best).

Section Engine.

(** [Math.log]. *)
Variable Math_log : float → float.

(** Rule 2 for one match and one PoS tag.  When [transProb] is an inherited
    function, [posTag] names a property of [Object.prototype]: [Math.log]
    of a function is [NaN], so is the new score, and the test of
    [updateViterbiTable] fails whether the row owns [posTag] (no score is
    below [NaN]) or not; the table is read at [endIdx] and nothing is
    stored.  The case [TPForeign] is outside the embedding and stops it; the
    forward pass never reaches it, since no row ever owns a name of
    [Object.prototype]: it throws only where the tags of a morph cannot be
    read ([forward_paths]). *)
Definition proposeTag (transitionMap : TransitionMap) (prevPos : jsstring)
    (prevState : State) (m : jsstring) (endIdx idx : nat)
    (posTag : jsstring) (viterbiTable : Table) : option Table :=
  match transitionProb transitionMap prevPos posTag with
  | TPNumber transProb =>
      let sc := (score prevState + Math_log transProb)%float in
      let morphObj := mkToken m posTag KText transProb in
      updateViterbiTable viterbiTable endIdx posTag prevState morphObj
        (sc - score prevState)%float posTag idx
  | TPInherited => _ ← viterbiTable !! endIdx; Some viterbiTable
  | TPForeign => None
  end.

(** The body of the loop over [prevPos] at position [idx].  The loops give
    it a key of row [idx] and an index below [text.length], so the two
    reads that open it succeed. *)
Definition stepState (text : jsstring) (trie : Trie) (posMap : PosMap)
    (transitionMap : TransitionMap)
    (findMorphs : Trie → jsstring → nat → list Found)
    (idx : nat) (prevPos : jsstring) (viterbiTable : Table) : option Table :=
  prevState ← cell viterbiTable idx prevPos;
  c ← text !! idx;
  if is_ws c then
    let endIdx := wsRunEnd (drop idx text) idx in
    let wsToken := mkToken (slice text idx endIdx) [] KWhitespace 1.0%float in
    updateViterbiTable viterbiTable endIdx prevPos prevState wsToken 0%float prevPos idx
  else
    let foundMorphs := findMorphs trie text idx in
    let matched := negb (bool_decide (foundMorphs = [])) in
    vt ← for_each foundMorphs (λ f vt,
            tags ← posTags posMap (found_morph f);
            for_each tags
              (proposeTag transitionMap prevPos prevState (found_morph f) (found_end f) idx)
              vt) viterbiTable;
    if negb matched then
      let skipToken := mkToken [c] [] KSkipped 1e-8%float in
      updateViterbiTable vt (idx + 1) prevPos prevState skipToken
        (Math_log 1e-8%float) prevPos idx
    else Some vt.

(** The two nested loops over positions and previous PoS tags.  The keys
    of row [idx] are those it has when the position is entered. *)
Definition forward (text : jsstring) (trie : Trie) (posMap : PosMap)
    (transitionMap : TransitionMap)
    (findMorphs : Trie → jsstring → nat → list Found) : option Table :=
  for_each (seq 0 (length text)) (λ idx vt,
    for_each (forin_keys (default [] (vt !! idx)))
      (stepState text trie posMap transitionMap findMorphs idx) vt)
    (initTable text).

Definition viterbiSegment (text : jsstring) (trie : Trie) (posMap : PosMap)
    (transitionMap : TransitionMap)
    (findMorphs : Trie → jsstring → nat → list Found)
    (recombinationMap : RecombinationMap) : option (list Word) :=
  vt ← forward text trie posMap transitionMap findMorphs;
  let best := pickBest (lastRow text vt) in
  Some (recombineTokens (backtrace best) recombinationMap).

(** The call of [ui/main.js]: the trie query is [findMorphsFromTrie]. *)
Definition segment (text : jsstring) (trie : Trie) (posMap : PosMap)
    (transitionMap : TransitionMap) (recombinationMap : RecombinationMap)
    : option (list Word) :=
  viterbiSegment text trie posMap transitionMap findMorphsFromTrie recombinationMap.

End Engine.

(** [buildPosMap].  For a morph that names a property of
    [Object.prototype] the test [!posMap[morph]] fails on the inherited
    value, no entry is created, and [posMap[morph].pos.includes] throws. *)
Definition buildPosMap (morphs : list DictEntry) : option PosMap :=
  for_each morphs (λ e posMap,
    match read posMap (entry_morph e) with
    | Own tags =>
        if bool_decide (entry_pos e ∈ tags) then Some posMap
        else Some (<[entry_morph e := tags ++ [entry_pos e]]> posMap)
    | Inherited => None
    | Undefined => Some (<[entry_morph e := [entry_pos e]]> posMap)
    end) ∅.

(** ** Concrete inputs *)

Definition noun : jsstring := js "noun".
Definition particle : jsstring := js "particle".
Definition verb : jsstring := js "verb".
Definition suffix : jsstring := js "suffix".

(** "今日" (U+4ECA U+65E5) and "は" (U+306F). *)
Definition kyou : jsstring := [20170%N; 26085%N].
Definition ha : jsstring := [12399%N].
(** "降" (U+964D) and "っている" (U+3063 U+3066 U+3044 U+308B). *)
Definition fu : jsstring := [38477%N].
Definition tteiru : jsstring := [12387%N; 12390%N; 12356%N; 12427%N].

Definition ex1_dict : list DictEntry := [mkDictEntry kyou noun; mkDictEntry ha particle].
Definition ex1_transitions : TransitionMap := {[ noun := {[ particle := 0.5%float ]} ]}.
Definition ex1_text : jsstring := kyou ++ ha.

Definition ex3_rules : RecombinationMap := {[ verb := [suffix] ]}.
Definition ex3_tokens : list Token :=
  [mkToken fu verb KText 1.0%float; mkToken tteiru suffix KText 1.0%float].

(** A reference instance of [Math.log], to close the concrete examples:
    [ln (m * 2^e) = e * ln 2 + 2 * atanh ((m - 1) / (m + 1))] with the
    mantissa [m] brought into [[sqrt 1/2, sqrt 2)]. *)
Fixpoint atanh_terms (n : nat) (z2 p k : float) : float :=
  match n with
  | 0 => 0%float
  | S n' => (p / k + atanh_terms n' z2 (p * z2) (k + 2))%float
  end.

Definition Math_log_ref (x : float) : float :=
  if is_nan x || (x <? 0)%float then nan
  else if is_zero x then neg_infinity
  else if is_infinity x then x
  else
    let '(m, e) := frshiftexp x in
    let low := (m <? 0x1.6a09e667f3bcdp-1)%float in
    let m' := if low then (m * 2)%float else m in
    let e' := (of_uint63 e - 2101 - (if low then 1 else 0))%float in
    let z := ((m' - 1) / (m' + 1))%float in
    (e' * 0x1.62e42fefa39efp-1 + 2 * atanh_terms 24 (z * z) z 1)%float.

(** The merge condition at cursor [i], in words: token [i] is a text token
    with a non-empty PoS tag that is a key of the rule set, token [i + 1]
    exists, is a text token, and its tag is a listed successor. *)
Definition mergeable (toks : list Token) (recombinationMap : RecombinationMap)
    (i : nat) (cur next : Token) : Prop :=
  toks !! i = Some cur ∧ toks !! (i + 1) = Some next
  ∧ type cur = KText ∧ pos cur ≠ []
  ∧ (∃ successors, recombinationMap !! pos cur = Some successors ∧ pos next ∈ successors)
  ∧ type next = KText.

(** A word the recombiner may emit. *)
Definition word_ok (recombinationMap : RecombinationMap) (w : Word) : Prop :=
  (∃ t, tokens w = [t])
  ∨ (∃ t1 t2 successors, tokens w = [t1; t2]
       ∧ type t1 = KText ∧ type t2 = KText
       ∧ recombinationMap !! pos t1 = Some successors ∧ pos t2 ∈ successors).

(** Inputs on which the recombiner meets a text token with an empty PoS tag:
    the dictionary tags "a" with the empty string, and the rule set lists
    "x" as a successor of the empty tag. *)
Definition ce8_rules : RecombinationMap := {[ [] := [js "x"] ]}.
Definition ce8_t0 : Token := mkToken (js "a") [] KText 1.0%float.
Definition ce8_t1 : Token := mkToken (js "b") (js "x") KText 1.0%float.
Definition ce8_tokens : list Token := [ce8_t0; ce8_t1].

(** The tables the forward pass goes through: the initial table and every
    table a call of [updateViterbiTable] returns. *)
Inductive Reachable (text : jsstring) : Table → Prop :=
| reach_init : Reachable text (initTable text)
| reach_update vt vt' nextIdx nextPos prevState tok addScore lastPos prevIdx :
    Reachable text vt →
    updateViterbiTable vt nextIdx nextPos prevState tok addScore lastPos prevIdx = Some vt' →
    Reachable text vt'.

(** At most one entry per PoS tag in every row. *)
Definition rows_functional (vt : Table) : Prop :=
  ∀ i row, vt !! i = Some row → NoDup row.*1.

(** ** The paths of the forward pass *)

(** One proposal of the forward pass from position [idx] under previous tag
    [prevPos] that the table can store: the target position, the target
    tag and the token.  A dictionary proposal under a tag that names a
    property of [Object.prototype] is none: [updateViterbiTable] never
    stores it. *)
Inductive TokenStep (text : jsstring) (trie : Trie) (posMap : PosMap)
    (transitionMap : TransitionMap) (idx : nat) (prevPos : jsstring)
    : nat → jsstring → Token → Prop :=
| step_whitespace c :
    text !! idx = Some c → is_ws c = true →
    TokenStep text trie posMap transitionMap idx prevPos
      (wsRunEnd (drop idx text) idx) prevPos
      (mkToken (slice text idx (wsRunEnd (drop idx text) idx)) [] KWhitespace 1.0%float)
| step_match c m endIdx tags posTag p :
    text !! idx = Some c → is_ws c = false →
    mkFound m endIdx ∈ findMorphsFromTrie trie text idx →
    posMap !! m = Some tags → posTag ∈ tags →
    inherited posTag = false →
    transitionProb transitionMap prevPos posTag = TPNumber p →
    TokenStep text trie posMap transitionMap idx prevPos endIdx posTag
      (mkToken m posTag KText p)
| step_skip c :
    text !! idx = Some c → is_ws c = false →
    findMorphsFromTrie trie text idx = [] →
    TokenStep text trie posMap transitionMap idx prevPos (idx + 1) prevPos
      (mkToken [c] [] KSkipped 1e-8%float).

(** [Path p k s]: the state [s], stored under tag [k] at position [p], is
    the initial state or extends the path of its back pointer by one
    proposal. *)
Inductive Path (text : jsstring) (trie : Trie) (posMap : PosMap)
    (transitionMap : TransitionMap) : nat → jsstring → State → Prop :=
| path_init : Path text trie posMap transitionMap 0 [] (mkState 0%float None None)
| path_step idx prevPos prev endIdx nextPos tok sc :
    Path text trie posMap transitionMap idx prevPos prev →
    TokenStep text trie posMap transitionMap idx prevPos endIdx nextPos tok →
    Path text trie posMap transitionMap endIdx nextPos (mkState sc (Some prev) (Some tok)).

(** The table has a row per position and every entry is the end of a path. *)
Definition TableOk (text : jsstring) (trie : Trie) (posMap : PosMap)
    (transitionMap : TransitionMap) (vt : Table) : Prop :=
  length vt = length text + 1
  ∧ ∀ p k s, cell vt p k = Some s → Path text trie posMap transitionMap p k s.

(** Populated cells stay populated. *)
Definition grows (vt vt' : Table) : Prop :=
  ∀ i k, is_Some (cell vt i k) → is_Some (cell vt' i k).

(** Every morph the trie emits on [text] has a PoS tag in the PosMap. *)
Definition covers (text : jsstring) (trie : Trie) (posMap : PosMap) : Prop :=
  ∀ idx f, f ∈ findMorphsFromTrie trie text idx →
    ∃ tags, posMap !! found_morph f = Some tags ∧ tags ≠ [].

(** Every morph the trie emits on [text] has a PoS tag in the PosMap that
    names no property of [Object.prototype]. *)
Definition covers_own (text : jsstring) (trie : Trie) (posMap : PosMap) : Prop :=
  ∀ idx f, f ∈ findMorphsFromTrie trie text idx →
    ∃ tags posTag, posMap !! found_morph f = Some tags
                 ∧ posTag ∈ tags ∧ inherited posTag = false.

(** At position [idx] the trie emits a morph that the PosMap does not own
    and that names a property of [Object.prototype]: the forward pass
    throws there, if it gets there. *)
Definition throwsAt (text : jsstring) (trie : Trie) (posMap : PosMap) (idx : nat) : Prop :=
  ∃ c f, text !! idx = Some c ∧ is_ws c = false
       ∧ f ∈ findMorphsFromTrie trie text idx
       ∧ posMap !! found_morph f = None ∧ inherited (found_morph f) = true.



(** ** Whitespace discipline of a token sequence *)

(** The text of a token sequence. *)
Definition surface (ts : list Token) : jsstring := concat (morph <$> ts).

(** A token spans at least one character; a whitespace token spans only
    whitespace, any other token none. *)
Definition token_ws_ok (t : Token) : Prop :=
  morph t ≠ []
  ∧ (type t = KWhitespace → Forall (λ c, is_ws c = true) (morph t))
  ∧ (type t ≠ KWhitespace → Forall (λ c, is_ws c = false) (morph t)).

(** Every token is [token_ws_ok] and no two whitespace tokens are adjacent. *)
Fixpoint ws_seg (ts : list Token) : Prop :=
  match ts with
  | [] => True
  | t :: ts' =>
      token_ws_ok t
      ∧ match ts' with
        | [] => True
        | t2 :: _ => ¬ (type t = KWhitespace ∧ type t2 = KWhitespace)
        end
      ∧ ws_seg ts'
  end.

(** [run] is a maximal run of whitespace of [text], between [pre] and [post]. *)
Definition maximal_ws_run (text pre run post : jsstring) : Prop :=
  text = pre ++ run ++ post
  ∧ run ≠ [] ∧ Forall (λ c, is_ws c = true) run
  ∧ (∀ c, last pre = Some c → is_ws c = false)
  ∧ (∀ c, head post = Some c → is_ws c = false).

(** No morph of the trie holds a whitespace character. *)
Definition no_ws_morphs (trie : Trie) : Prop :=
  ∀ w, trie_mem trie w = true → Forall (λ c, is_ws c = false) w.

(** A model whose PosMap misses a morph of the trie: the trie holds "a",
    the PosMap is empty. *)
Definition ce1_text : jsstring := js "a".
Definition ce1_trie : Trie := buildMorphTrie [mkDictEntry (js "a") noun].
Definition ce1_posMap : PosMap := ∅.

(** A dictionary with a morph that holds a space: "a b". *)
Definition ce5_dict : list DictEntry := [mkDictEntry (js "a b") noun].
Definition ce5_text : jsstring := js "a b".
Definition ce5_token : Token := mkToken (js "a b") noun KText 1.0%float.

(** A text that starts with a space, on the model [ce1_trie], [ce1_posMap]. *)
Definition ce5_text' : jsstring := js " a".

(** Example 3 through the entry point: "降っている" with the dictionary
    {(降, verb), (っている, suffix)} and verb -> suffix = 1.0. *)
Definition ex3_dict : list DictEntry := [mkDictEntry fu verb; mkDictEntry tteiru suffix].
Definition ex3_transitions : TransitionMap := {[ verb := {[ suffix := 1.0%float ]} ]}.
Definition ex3_text : jsstring := fu ++ tteiru.

Definition ex1_token1 : Token := mkToken kyou noun KText 1.0%float.
Definition ex1_token2 : Token := mkToken ha particle KText 0.5%float.

(** The dictionary behind [ce8_tokens]: "a" with the empty tag, "b" tagged "x". *)
Definition ce8_dict : list DictEntry := [mkDictEntry (js "a") []; mkDictEntry (js "b") (js "x")].

(** "今日  は": Example 1 with two spaces between the morphs. *)
Definition ex5_text : jsstring := kyou ++ js "  " ++ ha.

(** The sentence of the README, "今日は雨が降っているから、出かけたくない。",
    with its dictionary, transition table and recombination rules. *)
Definition ame : jsstring := [38632%N].
Definition ga : jsstring := [12364%N].
Definition kara : jsstring := [12363%N; 12425%N].
Definition dekake : jsstring := [20986%N; 12363%N; 12369%N].
Definition takunai : jsstring := [12383%N; 12367%N; 12394%N; 12356%N].
Definition touten : jsstring := [12289%N].
Definition kuten : jsstring := [12290%N].

Definition readme_dict : list DictEntry :=
  [mkDictEntry ha particle; mkDictEntry ga particle; mkDictEntry kara particle;
   mkDictEntry kyou noun; mkDictEntry ame noun;
   mkDictEntry fu verb; mkDictEntry dekake verb;
   mkDictEntry tteiru suffix; mkDictEntry takunai suffix].
Definition readme_transitions : TransitionMap :=
  {[ noun := {[ particle := 0.5%float; verb := 0.5%float ]};
     verb := {[ suffix := 1.0%float ]};
     suffix := {[ particle := 0.75%float; noun := 0.25%float ]} ]}.
Definition readme_rules : RecombinationMap := {[ verb := [suffix]; js "adj" := [suffix] ]}.
Definition readme_text : jsstring :=
  kyou ++ ha ++ ame ++ ga ++ fu ++ tteiru ++ kara ++ touten ++ dekake ++ takunai ++ kuten.
Definition readme_words : list Word :=
  [mkWord [mkToken kyou noun KText 1.0%float];
   mkWord [mkToken ha particle KText 0.5%float];
   mkWord [mkToken ame noun KText 1e-8%float];
   mkWord [mkToken ga particle KText 0.5%float];
   mkWord [mkToken fu verb KText 1e-8%float; mkToken tteiru suffix KText 1.0%float];
   mkWord [mkToken kara particle KText 0.75%float];
   mkWord [mkToken touten [] KSkipped 1e-8%float];
   mkWord [mkToken dekake verb KText 1e-8%float; mkToken takunai suffix KText 1.0%float];
   mkWord [mkToken kuten [] KSkipped 1e-8%float]].

(** Two segmentations of "xab" that meet in one cell: x, ab and x, a, b
    both end at position 3 with the tag "r". *)
Definition meet_dict : list DictEntry :=
  [mkDictEntry (js "x") (js "p"); mkDictEntry (js "ab") (js "r");
   mkDictEntry (js "a") (js "q"); mkDictEntry (js "b") (js "r")].
Definition meet_transitions : TransitionMap :=
  {[ js "p" := {[ js "q" := 0.75%float ]}; js "q" := {[ js "r" := 0.75%float ]} ]}.

Definition ex5_words : list Word :=
  [mkWord [mkToken kyou noun KText 1.0%float];
   mkWord [mkToken (js "  ") [] KWhitespace 1.0%float];
   mkWord [mkToken ha particle KText 0.5%float]].

(** ** ui/main.js: escaping, rendering, the user morph set *)

(** [s.replace(/c/g, replacement)] for a single code unit [c] and a
    replacement without [$] patterns. *)
Definition replaceAll (c : N) (replacement : jsstring) (s : jsstring) : jsstring :=
  s ≫= (λ x, if (x =? c)%N then replacement else [x]).

(** [escapeHtml]: five passes, over [&] (38), [<] (60), [>] (62), the double
    quote (34) and the single quote (39), in this order. *)
Definition escapeHtml (str : jsstring) : jsstring :=
  replaceAll 39 (js "&#39;")
    (replaceAll 34 (js "&quot;")
      (replaceAll 62 (js "&gt;")
        (replaceAll 60 (js "&lt;")
          (replaceAll 38 (js "&amp;") str)))).

(** The text one character is escaped to. *)
Definition entity (c : N) : jsstring :=
  if (c =? 38)%N then js "&amp;"
  else if (c =? 60)%N then js "&lt;"
  else if (c =? 62)%N then js "&gt;"
  else if (c =? 34)%N then js "&quot;"
  else if (c =? 39)%N then js "&#39;"
  else [c].

(** The key of a morph in the user set: [`${morph}|${pos}`]. *)
Definition userKey (m p : jsstring) : jsstring := m ++ js "|" ++ p.

Definition morphKey (firstTok : Token) : jsstring := userKey (morph firstTok) (pos firstTok).

(** The set [loadUserMorphs] builds from the entries of user.json. *)
Definition userMorphKeys (morphs : list DictEntry) : gset jsstring :=
  list_to_set ((λ m, userKey (entry_morph m) (entry_pos m)) <$> morphs).

(** [inUser ? '#B7CECE40' : '#ff4673']. *)
Definition underlineColor (userMorphSet : gset jsstring) (firstTok : Token) : jsstring :=
  if bool_decide (morphKey firstTok ∈ userMorphSet) then js "#B7CECE40" else js "#ff4673".

Definition dquote : jsstring := [34%N].

(** The opening tag of the template literal of [renderVisual]. *)
Definition spanOpen (key color : jsstring) : jsstring :=
  js "<span class=" ++ dquote ++ js "visual-word" ++ dquote
  ++ js " data-morph-key=" ++ dquote ++ key ++ dquote
  ++ js " style=" ++ dquote ++ js "text-decoration-color: " ++ color
  ++ js "; cursor:pointer;" ++ dquote ++ js ">".

(** The callback of [words.map] in [renderVisual]; reading [tokens[0].type]
    of a word without tokens is a [TypeError] ([None]). *)
Definition renderWord (userMorphSet : gset jsstring) (wordObj : Word) : option jsstring :=
  firstTok ← head (tokens wordObj);
  match type firstTok with
  | KWhitespace | KSkipped => Some (escapeHtml (morph firstTok))
  | KText =>
      let wordText := concat ((λ tok, escapeHtml (morph tok)) <$> tokens wordObj) in
      Some (spanOpen (morphKey firstTok) (underlineColor userMorphSet firstTok)
            ++ wordText ++ js "</span>")
  end.

(** The string [renderVisual] assigns to [innerHTML]. *)
Definition renderVisual (userMorphSet : gset jsstring) (words : list Word) : option jsstring :=
  pieces ← mapM (renderWord userMorphSet) words;
  Some (concat pieces).

(** The click handler on a word whose [data-morph-key] is [key]: an empty
    key is ignored, a key of the set is deleted, any other is added. *)
Definition toggleUserMorph (userMorphSet : gset jsstring) (key : jsstring) : gset jsstring :=
  if negb (nonempty key) then userMorphSet
  else if bool_decide (key ∈ userMorphSet) then userMorphSet ∖ {[key]}
  else userMorphSet ∪ {[key]}.

(** ** Shapes and bounds *)

(** What each kind of token carries. *)
Definition token_shape (trie : Trie) (posMap : PosMap) (tm : TransitionMap) (t : Token) : Prop :=
  match type t with
  | KWhitespace =>
      pos t = [] ∧ transProb t = 1.0%float
      ∧ morph t ≠ [] ∧ Forall (λ c, is_ws c = true) (morph t)
  | KSkipped =>
      pos t = [] ∧ transProb t = 1e-8%float
      ∧ ∃ c, morph t = [c] ∧ is_ws c = false
  | KText =>
      trie_mem trie (morph t) = true
      ∧ (∃ tags, posMap !! morph t = Some tags ∧ pos t ∈ tags)
      ∧ inherited (pos t) = false
      ∧ ∃ prevPos, transitionProb tm prevPos (pos t) = TPNumber (transProb t)
  end.

(** The PoS tags of a PosMap. *)
Definition allTags (posMap : PosMap) : gset jsstring :=
  list_to_set (concat ((map_to_list posMap).*2)).

(** A piece of the rendering: what stands before the escaped text of a
    word, the escaped text, and what stands after it. *)
Definition wrapPart (part : jsstring * jsstring * jsstring) : jsstring :=
  part.1.1 ++ part.1.2 ++ part.2.

(** A word is rendered bare, or wrapped in a [span] that carries the key
    and the colour of its first token. *)
Definition part_ok (userMorphSet : gset jsstring) (w : Word)
    (part : jsstring * jsstring * jsstring) : Prop :=
  part.1.2 = escapeHtml (surface (tokens w))
  ∧ ∃ t, head (tokens w) = Some t
       ∧ if is_text t
         then part.1.1 = spanOpen (morphKey t) (underlineColor userMorphSet t)
              ∧ part.2 = js "</span>"
         else part.1.1 = [] ∧ part.2 = [].


Definition user1_morphs : list DictEntry := [mkDictEntry kyou noun].

(** Every proposal from position [idx] under the tag [prevPos] has its
    target cell populated. *)
Definition StepsDone (text : jsstring) (trie : Trie) (posMap : PosMap)
    (transitionMap : TransitionMap) (idx : nat) (prevPos : jsstring) (vt : Table) : Prop :=
  ∀ e nextPos tok,
    TokenStep text trie posMap transitionMap idx prevPos e nextPos tok →
    is_Some (cell vt e nextPos).

(** A dictionary whose only tag names a property of [Object.prototype]:
    "a" tagged "constructor". *)
Definition ctor_tag_dict : list DictEntry := [mkDictEntry (js "a") (js "constructor")].
Definition ctor_tag_posMap : PosMap := {[ js "a" := [js "constructor"] ]}.

(** A dictionary with a morph that names a property of [Object.prototype]:
    "constructor" tagged noun; and a PosMap that owns that morph, as an
    object parsed from JSON can. *)
Definition ctor_morph_dict : list DictEntry := [mkDictEntry (js "constructor") noun].
Definition ctor_morph_posMap : PosMap := {[ js "constructor" := [noun] ]}.

(** The PosMaps of the examples. *)
Definition ex1_posMap : PosMap := {[ kyou := [noun]; ha := [particle] ]}.
Definition ex3_posMap : PosMap := {[ fu := [verb]; tteiru := [suffix] ]}.

(** The dictionary of the first example with its entries in the other order. *)
Definition ex1_dict_swapped : list DictEntry := [mkDictEntry ha particle; mkDictEntry kyou noun].

(** A text with every character [escapeHtml] replaces. *)
Definition esc1_text : jsstring := js "<a href='x'>R&D</a>" ++ dquote.

(** The map lists, for each morph seen, the tags of its entries, each once. *)
Definition PosMapOf (seen : list DictEntry) (posMap : PosMap) : Prop :=
  ∀ m, match posMap !! m with
       | None => m ∉ entry_morph <$> seen
       | Some tags => NoDup tags ∧ tags ≠ [] ∧ ∀ p, p ∈ tags ↔ mkDictEntry m p ∈ seen
       end.

(** * Properties *)

(** ** Strings *)

Lemma elem_of_concat {A} (x : A) (ls : list (list A)) :
  x ∈ concat ls ↔ ∃ l, x ∈ l ∧ l ∈ ls.
Proof.
  induction ls as [|l0 ls IH]; simpl.
  - split; [by intros ?%elem_of_nil|]. by intros (l & _ & ?%elem_of_nil).
  - rewrite elem_of_app, IH. split.
    + intros [?|(l & ? & ?)]; [exists l0|exists l]; split; try done.
      * apply list_elem_of_here.
      * by apply list_elem_of_further.
    + intros (l & Hx & [->|Hl]%elem_of_cons); [by left|]. right. by exists l.
Qed.

Lemma slice_length s i j : i ≤ j → j ≤ length s → length (slice s i j) = j - i.
Proof. intros. unfold slice. rewrite length_take, length_drop. lia. Qed.

Lemma slice_cons s i j c :
  s !! i = Some c → i < j → slice s i j = c :: slice s (S i) j.
Proof.
  intros Hc Hlt. unfold slice.
  rewrite (drop_S s c i Hc).
  replace (j - i) with (S (j - S i)) by lia. done.
Qed.

Lemma slice_app s i j k :
  i ≤ j → j ≤ k → slice s i j ++ slice s j k = slice s i k.
Proof.
  intros Hij Hjk. unfold slice.
  replace (drop j s) with (drop (j - i) (drop i s)).
  - rewrite take_take_drop. f_equal. lia.
  - rewrite drop_drop. f_equal. lia.
Qed.

Lemma slice_0 s j : slice s 0 j = take j s.
Proof. unfold slice. by rewrite Nat.sub_0_r, drop_0. Qed.

Lemma slice_one s i c : s !! i = Some c → slice s i (i + 1) = [c].
Proof.
  intros Hc. rewrite (slice_cons s i (i + 1) c Hc) by lia.
  unfold slice. replace (i + 1 - S i) with 0 by lia. done.
Qed.

Lemma drop_cons_inv {A} (l : list A) i x rest :
  drop i l = x :: rest → l !! i = Some x ∧ drop (S i) l = rest ∧ i < length l.
Proof.
  intros Hd.
  assert (Hx : l !! i = Some x).
  { pose proof (lookup_drop l i 0) as H. rewrite Hd, Nat.add_0_r in H. done. }
  split; [done|]. split.
  - rewrite (drop_S l x i Hx) in Hd. by inversion Hd.
  - by eapply lookup_lt_Some.
Qed.

Lemma drop_nil_inv {A} (l : list A) i : drop i l = [] → length l ≤ i.
Proof.
  intros Hd. pose proof (length_drop l i) as H. rewrite Hd in H. simpl in H. lia.
Qed.

(** ** The trie query *)

Lemma trie_mem_cons node c w n :
  node !! c = Some n → w ≠ [] → trie_mem node (c :: w) = trie_mem (children n) w.
Proof. intros Hn Hw. simpl. rewrite Hn. by rewrite bool_decide_eq_false_2. Qed.

Lemma walkTrie_spec text start rest :
  ∀ node idx found,
    drop idx text = rest →
    ∃ X, walkTrie node text start idx rest found = found ++ X
       ∧ (∀ m e, mkFound m e ∈ X ↔
            idx < e ≤ length text ∧ m = slice text start e
            ∧ trie_mem node (slice text idx e) = true)
       ∧ StronglySorted lt (found_end <$> X).
Proof.
  induction rest as [|c rest IH]; intros node idx found Hd.
  - exists []. simpl. rewrite app_nil_r. split; [done|]. split; [|constructor].
    intros m e. split; [by intros ?%elem_of_nil|].
    intros [[? ?] _]. apply drop_nil_inv in Hd. lia.
  - apply drop_cons_inv in Hd as (Hc & Hd & Hlen). simpl.
    destruct (node !! c) as [n|] eqn:Hn.
    + replace (S idx) with (idx + 1) in Hd by lia.
      set (pre := if ismorph n then [mkFound (slice text start (idx + 1)) (idx + 1)] else []).
      destruct (IH (children n) (idx + 1) (found ++ pre) Hd) as (X & HX & Hmem & Hsort).
      exists (pre ++ X). split; [|split].
      * rewrite app_assoc, <- HX. f_equal. unfold pre. destruct (ismorph n); [done|].
        by rewrite app_nil_r.
      * intros m e. rewrite elem_of_app, Hmem. split.
        -- intros [Hpre | (Hr & -> & Ht)].
           ++ unfold pre in Hpre. destruct (ismorph n) eqn:Hm; [|by apply elem_of_nil in Hpre].
              apply list_elem_of_singleton in Hpre. inversion Hpre; subst.
              split; [lia|]. split; [done|].
              rewrite (slice_one _ _ _ Hc). simpl. by rewrite Hn.
           ++ split; [lia|]. split; [done|].
              rewrite (slice_cons text idx e c Hc) by lia.
              replace (S idx) with (idx + 1) by lia.
              rewrite (trie_mem_cons _ _ _ _ Hn); [done|].
              intros Hnil. rewrite Hnil in Ht. done.
        -- intros (Hr & -> & Ht).
           destruct (decide (e = idx + 1)) as [->|Hne].
           ++ left. rewrite (slice_one _ _ _ Hc) in Ht. simpl in Ht. rewrite Hn in Ht.
              unfold pre. rewrite Ht. by apply list_elem_of_singleton.
           ++ right. split; [lia|]. split; [done|].
              rewrite (slice_cons text idx e c Hc) in Ht by lia.
              replace (S idx) with (idx + 1) in Ht by lia.
              rewrite (trie_mem_cons _ _ _ _ Hn) in Ht; [done|].
              intros Hnil. apply (f_equal length) in Hnil.
              rewrite slice_length in Hnil by lia. simpl in Hnil. lia.
      * rewrite fmap_app. unfold pre. destruct (ismorph n); [|done].
        simpl. constructor; [done|].
        apply list.Forall_forall. intros e He.
        apply list_elem_of_fmap in He as ([m e'] & -> & Hin).
        apply Hmem in Hin. simpl. lia.
    + exists []. rewrite app_nil_r. split; [done|]. split; [|constructor].
      intros m e. split; [by intros ?%elem_of_nil|].
      intros (Hr & _ & Ht).
      rewrite (slice_cons text idx e c Hc) in Ht by lia. simpl in Ht. by rewrite Hn in Ht.
Qed.

Lemma findMorphsFromTrie_elem trie text start m e :
  mkFound m e ∈ findMorphsFromTrie trie text start ↔
    start < e ≤ length text ∧ m = slice text start e ∧ trie_mem trie m = true.
Proof.
  unfold findMorphsFromTrie.
  destruct (walkTrie_spec text start (drop start text) trie start [] eq_refl)
    as (X & -> & Hmem & _).
  simpl. rewrite Hmem. split; intros (? & -> & ?); done.
Qed.

(** C9: the trie query returns exactly the prefixes of [text] from [start]
    that are morphs of the trie, one match per terminal node in order of
    depth; it is empty when [start] is past the text or the first
    character has no child. *)
Theorem findMorphsFromTrie_spec (trie : Trie) (text : jsstring) (start : nat) :
  (∀ m e, mkFound m e ∈ findMorphsFromTrie trie text start ↔
     start < e ≤ length text ∧ m = slice text start e ∧ trie_mem trie m = true)
  ∧ StronglySorted lt (found_end <$> findMorphsFromTrie trie text start)
  ∧ (length text ≤ start → findMorphsFromTrie trie text start = [])
  ∧ (∀ c, text !! start = Some c → trie !! c = None →
       findMorphsFromTrie trie text start = []).
Proof.
  split; [intros; apply findMorphsFromTrie_elem|]. split; [|split].
  - unfold findMorphsFromTrie.
    by destruct (walkTrie_spec text start (drop start text) trie start [] eq_refl)
      as (X & -> & _ & Hs).
  - intros Hlen. unfold findMorphsFromTrie. by rewrite drop_ge.
  - intros c Hc Hn. unfold findMorphsFromTrie.
    rewrite (drop_S _ _ _ Hc). simpl. by rewrite Hn.
Qed.

(** ** The recombiner *)

Lemma nonempty_true s : nonempty s = true ↔ s ≠ [].
Proof.
  unfold nonempty. rewrite negb_true_iff. split.
  - by intros ?%bool_decide_eq_false.
  - by intros ?; apply bool_decide_eq_false.
Qed.

Lemma is_text_true t : is_text t = true ↔ type t = KText.
Proof. unfold is_text. apply bool_decide_eq_true. Qed.

Lemma mergedAt_true toks rm i :
  mergedAt toks rm i = true ↔ ∃ cur next, mergeable toks rm i cur next.
Proof.
  unfold mergedAt, mergeable. split.
  - destruct (toks !! i) as [cur|] eqn:Hcur; [|done].
    intros [Hne Hex]%andb_true_iff. apply nonempty_true in Hne.
    destruct (rm !! pos cur) as [succs|] eqn:Hsuccs; [|done].
    apply existsb_exists in Hex as (nextPos & Hin & Hc).
    destruct (toks !! (i + 1)) as [next|] eqn:Hnext; [|done].
    apply andb_true_iff in Hc as [[Hp Hc]%andb_true_iff Hn].
    apply bool_decide_eq_true in Hp. apply is_text_true in Hc, Hn.
    exists cur, next. repeat split; try done.
    exists succs. split; [done|]. subst nextPos. by apply list_elem_of_In.
  - intros (cur & next & -> & -> & Hc & Hne & (succs & -> & Hin) & Hn).
    apply andb_true_iff. split; [by apply nonempty_true|].
    apply existsb_exists. exists (pos next). split; [by apply list_elem_of_In|].
    rewrite bool_decide_eq_true_2 by done.
    simpl. apply andb_true_iff. by split; apply is_text_true.
Qed.

Lemma recombineStep_merged toks rm i result cur next :
  mergeable toks rm i cur next →
  recombineStep toks rm i result = (i + 2, result ++ [mkWord [cur; next]]).
Proof.
  intros Hm. unfold recombineStep.
  assert (Hb : mergedAt toks rm i = true) by (apply mergedAt_true; eauto).
  destruct Hm as (-> & -> & _). by rewrite Hb.
Qed.

Lemma recombineStep_single toks rm i result cur :
  toks !! i = Some cur → (∀ c n, ¬ mergeable toks rm i c n) →
  recombineStep toks rm i result = (i + 1, result ++ [mkWord [cur]]).
Proof.
  intros Hc Hno. unfold recombineStep. rewrite Hc.
  destruct (mergedAt toks rm i) eqn:Hb; [|done].
  apply mergedAt_true in Hb as (c & n & Hm). by destruct (Hno c n).
Qed.

Lemma recombineStep_cases toks rm i result :
  i < length toks →
  ∃ cur, toks !! i = Some cur ∧
    ((∃ next, mergeable toks rm i cur next
        ∧ recombineStep toks rm i result = (i + 2, result ++ [mkWord [cur; next]]))
     ∨ ((∀ c n, ¬ mergeable toks rm i c n)
        ∧ recombineStep toks rm i result = (i + 1, result ++ [mkWord [cur]]))).
Proof.
  intros Hlt. destruct (lookup_lt_is_Some_2 toks i Hlt) as [cur Hc].
  exists cur. split; [done|].
  destruct (mergedAt toks rm i) eqn:Hb.
  - left. apply mergedAt_true in Hb as (c & next & Hm).
    assert (c = cur) as -> by (destruct Hm as (Hc' & _); congruence).
    exists next. split; [done|]. by apply recombineStep_merged.
  - right. assert (Hno : ∀ c n, ¬ mergeable toks rm i c n).
    { intros c n Hm. assert (mergedAt toks rm i = true) by (apply mergedAt_true; eauto).
      congruence. }
    split; [done|]. by apply recombineStep_single.
Qed.

Lemma recombineStep_advance toks rm i result :
  i < length toks →
  i < (recombineStep toks rm i result).1 ≤ length toks.
Proof.
  intros Hlt.
  destruct (recombineStep_cases toks rm i result Hlt)
    as (cur & Hc & [(next & Hm & ->) | (_ & ->)]); simpl.
  - destruct Hm as (_ & Hn%lookup_lt_Some & _). lia.
  - lia.
Qed.

(** An invariant of the loop body is established for the result, and the
    loop ends with the cursor past the last token: the fuel suffices. *)
Lemma recombineLoop_inv (P : nat → list Word → Prop) toks rm :
  (∀ i r, i < length toks → P i r →
     P (recombineStep toks rm i r).1 (recombineStep toks rm i r).2) →
  ∀ fuel i r, length toks - i ≤ fuel → P i r →
    ∃ i', length toks ≤ i' ∧ P i' (recombineLoop fuel toks rm i r).
Proof.
  intros Hstep. induction fuel as [|fuel IH]; intros i r Hfuel HP; simpl.
  - exists i. split; [lia|done].
  - destruct (decide (i < length toks)) as [Hlt|Hge].
    + pose proof (recombineStep_advance toks rm i r Hlt) as Hadv.
      specialize (Hstep i r Hlt HP).
      destruct (recombineStep toks rm i r) as [i' r']. simpl in *.
      apply IH; [lia|done].
    + exists i. split; [lia|done].
Qed.

Lemma recombineLoop_fuel toks rm :
  ∀ fuel fuel' i r, length toks - i ≤ fuel → length toks - i ≤ fuel' →
    recombineLoop fuel toks rm i r = recombineLoop fuel' toks rm i r.
Proof.
  induction fuel as [|fuel IH]; intros fuel' i r H1 H2.
  - destruct fuel'; simpl; [done|]. destruct (decide (i < length toks)); [lia|done].
  - destruct fuel' as [|fuel']; simpl.
    + destruct (decide (i < length toks)); [lia|done].
    + destruct (decide (i < length toks)) as [Hlt|]; [|done].
      pose proof (recombineStep_advance toks rm i r Hlt) as Hadv.
      destruct (recombineStep toks rm i r) as [i' r']. simpl in *.
      apply IH; lia.
Qed.

(** The loop, unfolded once, with the fuel the remaining tokens need. *)
Lemma recombineLoop_unfold toks rm i r :
  recombineLoop (length toks - i) toks rm i r =
    if decide (i < length toks)
    then recombineLoop (length toks - (recombineStep toks rm i r).1) toks rm
           (recombineStep toks rm i r).1 (recombineStep toks rm i r).2
    else r.
Proof.
  destruct (decide (i < length toks)) as [Hlt|Hge].
  - destruct (length toks - i) as [|fuel] eqn:Hf; [lia|]. simpl.
    rewrite decide_True by done.
    pose proof (recombineStep_advance toks rm i r Hlt) as Hadv.
    destruct (recombineStep toks rm i r) as [i' r']. simpl in *.
    apply recombineLoop_fuel; lia.
  - replace (length toks - i) with 0 by lia. done.
Qed.

(** The words of the result hold the tokens of the input, in order. *)
Lemma recombineTokens_concat toks rm :
  concat (tokens <$> recombineTokens toks rm) = toks.
Proof.
  unfold recombineTokens.
  destruct (recombineLoop_inv
              (λ i r, i ≤ length toks ∧ concat (tokens <$> r) = take i toks)
              toks rm) with (fuel := length toks) (i := 0) (r := @nil Word)
    as (i' & Hge & Hle & Heq).
  - intros i r Hlt [_ Hr].
    pose proof (recombineStep_advance toks rm i r Hlt) as Hadv.
    split; [lia|]. clear Hadv.
    destruct (recombineStep_cases toks rm i r Hlt)
      as (cur & Hc & [(next & Hm & ->) | (_ & ->)]); simpl;
      rewrite fmap_app, concat_app, Hr; simpl.
    + destruct Hm as (_ & Hn & _).
      replace (i + 2) with (S (S i)) by lia.
      replace (i + 1) with (S i) in Hn by lia.
      rewrite (take_S_r toks (S i) next Hn), (take_S_r toks i cur Hc).
      by rewrite <- app_assoc.
    + replace (i + 1) with (S i) by lia. by rewrite (take_S_r toks i cur Hc).
  - lia.
  - split; [lia|done].
  - rewrite Heq. by rewrite take_ge.
Qed.

Lemma recombineTokens_words_ok toks rm :
  Forall (word_ok rm) (recombineTokens toks rm).
Proof.
  unfold recombineTokens.
  destruct (recombineLoop_inv (λ _ r, Forall (word_ok rm) r) toks rm)
    with (fuel := length toks) (i := 0) (r := @nil Word) as (i' & _ & Hok);
    [|lia|constructor|done].
  intros i r Hlt Hr.
  destruct (recombineStep_cases toks rm i r Hlt)
    as (cur & Hc & [(next & Hm & ->) | (_ & ->)]); simpl;
    apply Forall_app; (split; [done|]); apply list.Forall_singleton.
  - right. destruct Hm as (_ & _ & Ht1 & _ & (succs & Hs & Hin) & Ht2).
    exists cur, next, succs. done.
  - left. by exists cur.
Qed.

(** C8, as the code has it: the recombiner is one left-to-right pass.  At
    cursor [i] it emits the two-token word and advances by 2 exactly when
    token [i] is a text token whose PoS tag is non-empty and a key of the
    rule set, and token [i + 1] exists, is a text token and has a listed
    successor tag; otherwise it emits the one-token word and advances by 1.
    With the rule verb -> {suffix}, the tokens of Example 3 give one word
    holding both. *)
Theorem recombineTokens_single_pass (toks : list Token) (rm : RecombinationMap) :
  (∀ i result cur, toks !! i = Some cur →
     (∃ next, mergeable toks rm i cur next
        ∧ recombineStep toks rm i result = (i + 2, result ++ [mkWord [cur; next]]))
     ∨ ((∀ c n, ¬ mergeable toks rm i c n)
        ∧ recombineStep toks rm i result = (i + 1, result ++ [mkWord [cur]])))
  ∧ recombineTokens toks rm = recombineLoop (length toks - 0) toks rm 0 []
  ∧ (∀ i r, recombineLoop (length toks - i) toks rm i r =
       if decide (i < length toks)
       then recombineLoop (length toks - (recombineStep toks rm i r).1) toks rm
              (recombineStep toks rm i r).1 (recombineStep toks rm i r).2
       else r)
  ∧ recombineTokens ex3_tokens ex3_rules = [mkWord ex3_tokens].
Proof.
  split; [|split; [|split]].
  - intros i result cur Hc.
    destruct (recombineStep_cases toks rm i result (lookup_lt_Some _ _ _ Hc))
      as (cur' & Hc' & Hcases).
    assert (cur' = cur) as -> by congruence. done.
  - unfold recombineTokens. by rewrite Nat.sub_0_r.
  - apply recombineLoop_unfold.
  - vm_compute. reflexivity.
Qed.

(** C8 as stated fails for an empty PoS tag: token 0 is a text token, its
    (empty) tag is a key of the rule set, token 1 is a text token with a
    listed successor tag, yet the step emits a one-token word and advances
    by 1, and the pass yields two words.  The entry point produces these
    tokens from the text "ab". *)
Lemma recombine_empty_tag_counterexample :
  (ce8_tokens !! 0 = Some ce8_t0 ∧ type ce8_t0 = KText
   ∧ ce8_rules !! pos ce8_t0 = Some [js "x"]
   ∧ ce8_tokens !! 1 = Some ce8_t1 ∧ type ce8_t1 = KText ∧ pos ce8_t1 ∈ [js "x"])
  ∧ recombineStep ce8_tokens ce8_rules 0 [] = (1, [mkWord [ce8_t0]])
  ∧ recombineTokens ce8_tokens ce8_rules = [mkWord [ce8_t0]; mkWord [ce8_t1]]
  ∧ ∃ posMap, buildPosMap ce8_dict = Some posMap
      ∧ segment Math_log_ref (js "ab") (buildMorphTrie ce8_dict) posMap ∅ ce8_rules
        = Some [mkWord [ce8_t0]; mkWord [ce8_t1]].
Proof.
  split; [|split; [|split]]; [|vm_compute; reflexivity..|].
  - repeat split; try (vm_compute; reflexivity).
    apply list_elem_of_singleton. reflexivity.
  - eexists. split; [vm_compute; reflexivity|]. vm_compute. reflexivity.
Qed.

(** ** The transition policy *)


(** ** Reads *)

Lemma inherited_nil : inherited [] = false.
Proof. reflexivity. Qed.

Lemma read_own {A} (o : gmap jsstring A) k :
  inherited k = false →
  read o k = match o !! k with Some a => Own a | None => Undefined end.
Proof. intros Hk. unfold read. rewrite Hk. done. Qed.

Lemma posTags_Some posMap m tags :
  posMap !! m = Some tags → posTags posMap m = Some tags.
Proof. intros H. unfold posTags, read. by rewrite H. Qed.

Lemma posTags_None posMap m :
  posTags posMap m = None ↔ posMap !! m = None ∧ inherited m = true.
Proof.
  unfold posTags, read. destruct (posMap !! m); [naive_solver|].
  destruct (inherited m); naive_solver.
Qed.

Lemma posTags_elem posMap m tags posTag :
  posTags posMap m = Some tags → posTag ∈ tags → posMap !! m = Some tags.
Proof.
  unfold posTags, read. destruct (posMap !! m); [by intros [= ->]|].
  destruct (inherited m); [done|]. intros [= <-] ?%elem_of_nil. done.
Qed.

(** The policy on tags that name no property of [Object.prototype]: the
    probability is a number, read among the own keys of the table. *)
Lemma transitionProb_own tm prevPos posTag :
  inherited prevPos = false → inherited posTag = false →
  transitionProb tm prevPos posTag =
    TPNumber (if nonempty prevPos
              then match tm !! prevPos ≫= (.!! posTag) with
                   | Some p => if truthy p then p else 1e-8%float
                   | None => 1e-8%float
                   end
              else 1.0%float).
Proof.
  intros H1 H2. unfold transitionProb. destruct (nonempty prevPos); [|done].
  rewrite (read_own tm) by done. destruct (tm !! prevPos) as [next|]; simpl; [|done].
  rewrite (read_own next) by done. destruct (next !! posTag) as [p|]; [|done].
  by destruct (truthy p).
Qed.

(** Under a previous tag that names no property of [Object.prototype] the
    read stays inside the transition table. *)
Lemma transitionProb_local tm prevPos posTag :
  inherited prevPos = false → transitionProb tm prevPos posTag ≠ TPForeign.
Proof.
  intros H1. unfold transitionProb. destruct (nonempty prevPos); [|done].
  rewrite (read_own tm) by done. destruct (tm !! prevPos) as [next|]; [|done].
  destruct (read next posTag) as [p| |]; [by destruct (truthy p)|done..].
Qed.

Lemma transitionProb_inherited tm prevPos posTag :
  transitionProb tm prevPos posTag = TPInherited → inherited posTag = true.
Proof.
  unfold transitionProb. destruct (nonempty prevPos); [|done].
  destruct (read tm prevPos) as [next| |]; [|done..].
  unfold read. destruct (next !! posTag) as [p|]; [by destruct (truthy p)|].
  by destruct (inherited posTag).
Qed.


(** ** Rows and cells *)

Lemma row_get_is_Some row k : is_Some (row_get row k) ↔ k ∈ row.*1.
Proof.
  induction row as [|[k' v] row IH]; simpl.
  - split; [by intros [? ?]|by intros ?%elem_of_nil].
  - rewrite elem_of_cons. case_bool_decide as Hk.
    + subst. split; [by left|by eexists].
    + rewrite IH. naive_solver.
Qed.

Lemma row_get_set row k v k' :
  row_get (row_set row k v) k' = if decide (k = k') then Some v else row_get row k'.
Proof.
  induction row as [|[k0 v0] row IH]; simpl.
  - case_bool_decide; case_decide; done.
  - case_bool_decide as H0; simpl.
    + subst k0. case_bool_decide; case_decide; done.
    + rewrite IH. case_bool_decide; case_decide; try done. congruence.
Qed.

Lemma row_set_keys row k v k' :
  k' ∈ (row_set row k v).*1 ↔ k' = k ∨ k' ∈ row.*1.
Proof.
  rewrite <- !row_get_is_Some, row_get_set.
  case_decide; subst; [|naive_solver].
  split; [by left|by eexists].
Qed.

Lemma row_set_NoDup row k v : NoDup row.*1 → NoDup (row_set row k v).*1.
Proof.
  induction row as [|[k0 v0] row IH]; simpl.
  - intros _. apply NoDup_singleton.
  - rewrite !NoDup_cons. intros [Hnin Hnd]. case_bool_decide as H0; simpl.
    + subst. apply NoDup_cons. done.
    + apply NoDup_cons. split; [|by apply IH].
      rewrite row_set_keys. naive_solver.
Qed.

(** ** The table update *)

Lemma row_read_cell vt i row k :
  vt !! i = Some row →
  row_read row k = match cell vt i k with
                   | Some s => Own s
                   | None => if inherited k then Inherited else Undefined
                   end.
Proof. intros Hrow. unfold row_read, cell. by rewrite Hrow. Qed.

Lemma updateViterbiTable_total vt nextIdx nextPos prevState tok addScore lastPos prevIdx :
  nextIdx < length vt →
  is_Some (updateViterbiTable vt nextIdx nextPos prevState tok addScore lastPos prevIdx).
Proof.
  intros Hlt. unfold updateViterbiTable.
  destruct (lookup_lt_is_Some_2 vt nextIdx Hlt) as [row ->]. simpl.
  by destruct (match row_read row nextPos with Own _ => _ | Inherited => _ | Undefined => _ end).
Qed.

(** What a call changes: nothing but the target cell, and that cell only
    when it holds a strictly smaller score, or when it is free and its key
    names no property of [Object.prototype]. *)
Lemma updateViterbiTable_cell vt nextIdx nextPos prevState tok addScore lastPos prevIdx vt' :
  updateViterbiTable vt nextIdx nextPos prevState tok addScore lastPos prevIdx = Some vt' →
  let newScore := (score prevState + addScore)%float in
  length vt' = length vt
  ∧ nextIdx < length vt
  ∧ (∀ i k, (i, k) ≠ (nextIdx, nextPos) → cell vt' i k = cell vt i k)
  ∧ cell vt' nextIdx nextPos =
      match cell vt nextIdx nextPos with
      | None =>
          if inherited nextPos then None
          else Some (mkState newScore (Some prevState) (Some tok))
      | Some old =>
          if (score old <? newScore)%float
          then Some (mkState newScore (Some prevState) (Some tok))
          else Some old
      end
  ∧ (vt' ≠ vt →
       (cell vt nextIdx nextPos = None ∧ inherited nextPos = false)
       ∨ ∃ old, cell vt nextIdx nextPos = Some old ∧ (score old <? newScore)%float = true).
Proof.
  intros Hu newScore. unfold updateViterbiTable in Hu. fold newScore in Hu.
  destruct (vt !! nextIdx) as [row|] eqn:Hrow; simpl in Hu; [|done].
  pose proof (lookup_lt_Some _ _ _ Hrow) as Hlt.
  rewrite (row_read_cell vt nextIdx row nextPos Hrow) in Hu.
  set (new := mkState newScore (Some prevState) (Some tok)) in *.
  assert (Hins : ∀ i k, cell (<[nextIdx := row_set row nextPos new]> vt) i k =
            if decide (i = nextIdx ∧ k = nextPos) then Some new else cell vt i k).
  { intros i k. unfold cell. destruct (decide (i = nextIdx)) as [->|Hi].
    - rewrite list_lookup_insert_eq by done. simpl. rewrite row_get_set, Hrow. simpl.
      repeat case_decide; naive_solver.
    - rewrite list_lookup_insert_ne by done. case_decide; naive_solver. }
  assert (Hwrite : vt' = <[nextIdx := row_set row nextPos new]> vt →
            length vt' = length vt ∧ nextIdx < length vt
            ∧ (∀ i k, (i, k) ≠ (nextIdx, nextPos) → cell vt' i k = cell vt i k)
            ∧ cell vt' nextIdx nextPos = Some new).
  { intros ->. split; [by rewrite length_insert|]. split; [done|]. split.
    - intros i k Hne. rewrite Hins. case_decide; naive_solver.
    - rewrite Hins. by rewrite decide_True. }
  destruct (cell vt nextIdx nextPos) as [old|] eqn:Hold.
  - destruct (score old <? newScore)%float eqn:Hlt'; inversion Hu; subst vt'; clear Hu.
    + destruct (Hwrite eq_refl) as (H1 & H2 & H3 & H4).
      split; [done|]. split; [done|]. split; [done|]. split; [done|].
      intros _. right. by exists old.
    + split; [done|]. split; [done|]. split; [done|]. split; [done|]. done.
  - destruct (inherited nextPos) eqn:Hinh; inversion Hu; subst vt'; clear Hu.
    + split; [done|]. split; [done|]. split; [done|]. split; [done|]. done.
    + destruct (Hwrite eq_refl) as (H1 & H2 & H3 & H4).
      split; [done|]. split; [done|]. split; [done|]. split; [done|].
      intros _. by left.
Qed.

Lemma updateViterbiTable_functional vt nextIdx nextPos prevState tok addScore lastPos prevIdx vt' :
  updateViterbiTable vt nextIdx nextPos prevState tok addScore lastPos prevIdx = Some vt' →
  rows_functional vt → rows_functional vt'.
Proof.
  unfold updateViterbiTable, rows_functional. intros Hu Hvt i r Hr.
  destruct (vt !! nextIdx) as [row|] eqn:Hrow; simpl in Hu; [|done].
  assert (Hcase : vt' = vt ∨
            vt' = <[nextIdx := row_set row nextPos
                      (mkState (score prevState + addScore) (Some prevState) (Some tok))]> vt).
  { destruct (match row_read row nextPos with Own _ => _ | Inherited => _ | Undefined => _ end);
      inversion Hu; auto. }
  destruct Hcase as [->| ->]; [by eapply Hvt|].
  destruct (decide (i = nextIdx)) as [->|Hi].
  - rewrite list_lookup_insert_eq in Hr by (by eapply lookup_lt_Some).
    inversion Hr; subst r. apply row_set_NoDup. by eapply Hvt.
  - rewrite list_lookup_insert_ne in Hr by done. by eapply Hvt.
Qed.

Lemma initTable_functional text : rows_functional (initTable text).
Proof.
  unfold rows_functional, initTable. intros i row Hrow.
  destruct i as [|i].
  - rewrite list_lookup_insert_eq in Hrow by (rewrite length_replicate; lia).
    inversion Hrow; subst. apply NoDup_singleton.
  - rewrite list_lookup_insert_ne in Hrow by done.
    apply lookup_replicate in Hrow as [-> _]. apply NoDup_nil_2.
Qed.

Lemma Reachable_functional text vt : Reachable text vt → rows_functional vt.
Proof.
  induction 1 as [|vt vt' ? ? ? ? ? ? ? _ IH Hu].
  - apply initTable_functional.
  - by eapply updateViterbiTable_functional.
Qed.

(** ** Enumeration and loops *)

Lemma insert_by_index_elem x y l : y ∈ insert_by_index x l ↔ y = x ∨ y ∈ l.
Proof.
  induction l as [|z l IH]; simpl.
  - by rewrite list_elem_of_singleton, elem_of_nil; naive_solver.
  - destruct (x.1 <=? z.1)%N.
    + by rewrite elem_of_cons.
    + rewrite !elem_of_cons, IH. naive_solver.
Qed.

Lemma sort_by_index_elem y l : y ∈ sort_by_index l ↔ y ∈ l.
Proof.
  induction l as [|x l IH]; simpl; [done|].
  rewrite insert_by_index_elem, elem_of_cons, IH. done.
Qed.

(** [for ... in] visits exactly the keys of the row. *)
Lemma forin_keys_elem row k : k ∈ forin_keys row ↔ k ∈ row.*1.
Proof.
  unfold forin_keys. rewrite elem_of_app, list_elem_of_fmap, list_elem_of_filter.
  split.
  - intros [([n k'] & -> & Hin) | [_ Hin]]; [|done].
    apply sort_by_index_elem, list_elem_of_omap in Hin as (k0 & Hk0 & Hf).
    destruct (array_index k0); simpl in Hf; [|done]. by inversion Hf; subst.
  - intros Hin. destruct (array_index k) as [n|] eqn:Hn; [left|by right].
    exists (n, k). split; [done|].
    apply sort_by_index_elem, list_elem_of_omap. exists k. split; [done|].
    by rewrite Hn.
Qed.

(** A loop whose body never throws under an invariant on the part of the
    list already visited returns, and the invariant holds at the end. *)
Lemma for_each_inv {A S : Type} (P : list A → S → Prop) (l : list A)
    (body : A → S → option S) (s : S) :
  P [] s →
  (∀ visited x s, (∃ rest, l = visited ++ x :: rest) → P visited s →
     ∃ s', body x s = Some s' ∧ P (visited ++ [x]) s') →
  ∃ s', for_each l body s = Some s' ∧ P l s'.
Proof.
  intros H0 Hbody.
  assert (Hgen : ∀ rest visited s, l = visited ++ rest → P visited s →
            ∃ s', for_each rest body s = Some s' ∧ P l s').
  { induction rest as [|x rest IH]; intros visited s0 Hl HP; simpl.
    - exists s0. rewrite app_nil_r in Hl. by subst.
    - destruct (Hbody visited x s0) as (s1 & -> & HP1); [by exists rest|done|].
      simpl. apply (IH (visited ++ [x])); [|done].
      by rewrite <- app_assoc. }
  by apply (Hgen l []).
Qed.

(** A loop whose body keeps an invariant on the part of the list already
    visited, or else throws for a reason [Bad] of the element: the loop
    returns with the invariant, or throws for that reason at some element. *)
Lemma for_each_match {A S : Type} (P : list A → S → Prop) (Bad : A → Prop) (l : list A)
    (body : A → S → option S) (s : S) :
  P [] s →
  (∀ visited x s, (∃ rest, l = visited ++ x :: rest) → P visited s →
     match body x s with
     | Some s' => P (visited ++ [x]) s'
     | None => Bad x
     end) →
  match for_each l body s with
  | Some s' => P l s'
  | None => ∃ x, x ∈ l ∧ Bad x
  end.
Proof.
  intros H0 Hbody.
  assert (Hgen : ∀ rest visited s, l = visited ++ rest → P visited s →
            match for_each rest body s with
            | Some s' => P l s'
            | None => ∃ x, x ∈ l ∧ Bad x
            end).
  { induction rest as [|x rest IH]; intros visited s0 Hl HP; simpl.
    - rewrite app_nil_r in Hl. by subst.
    - specialize (Hbody visited x s0 (ex_intro _ rest Hl) HP).
      destruct (body x s0) as [s1|]; simpl.
      + apply (IH (visited ++ [x])); [|done]. by rewrite <- app_assoc.
      + exists x. split; [|done]. rewrite Hl. apply elem_of_app. right.
        apply list_elem_of_here. }
  by apply (Hgen l []).
Qed.

(** Whatever a loop returns satisfies an invariant of its body. *)
Lemma for_each_preserves {A S : Type} (P : S → Prop) (l : list A)
    (body : A → S → option S) :
  (∀ x s s', P s → body x s = Some s' → P s') →
  ∀ s s', P s → for_each l body s = Some s' → P s'.
Proof.
  intros Hbody. induction l as [|x l IH]; intros s s' HP; simpl.
  - by intros [= <-].
  - destruct (body x s) as [s1|] eqn:Hb; simpl; [|done].
    apply IH. by eapply Hbody.
Qed.

Lemma seq_split_inv n visited x rest :
  seq 0 n = visited ++ x :: rest → x = length visited ∧ x < n.
Proof.
  intros Hs.
  assert (Hx : seq 0 n !! length visited = Some x).
  { rewrite Hs. by rewrite list_lookup_middle. }
  apply lookup_seq in Hx. simpl in Hx. lia.
Qed.

(** ** The whitespace run *)

Lemma wsRunEnd_spec text rest :
  ∀ e0, drop e0 text = rest → e0 ≤ length text →
    e0 ≤ wsRunEnd rest e0 ≤ length text
    ∧ (∀ j c, e0 ≤ j < wsRunEnd rest e0 → text !! j = Some c → is_ws c = true)
    ∧ (∀ c, text !! wsRunEnd rest e0 = Some c → is_ws c = false).
Proof.
  induction rest as [|c rest IH]; intros e0 Hd Hle; simpl.
  - apply drop_nil_inv in Hd. split; [lia|]. split; [intros; lia|].
    intros c Hc. apply lookup_lt_Some in Hc. lia.
  - apply drop_cons_inv in Hd as (Hc & Hd & Hlt).
    destruct (is_ws c) eqn:Hws.
    + replace (S e0) with (e0 + 1) in Hd by lia.
      destruct (IH (e0 + 1) Hd) as (Hr & Hall & Hend); [lia|].
      split; [lia|]. split; [|done].
      intros j c' Hj Hc'. destruct (decide (j = e0)) as [->|Hne].
      * congruence.
      * apply (Hall j); [lia|done].
    + split; [lia|]. split; [intros; lia|]. intros c' Hc'. congruence.
Qed.

Lemma wsRunEnd_gt text idx c :
  text !! idx = Some c → is_ws c = true → idx < wsRunEnd (drop idx text) idx.
Proof.
  intros Hc Hws. rewrite (drop_S _ _ _ Hc). simpl. rewrite Hws.
  pose proof (lookup_lt_Some _ _ _ Hc) as Hlt.
  destruct (wsRunEnd_spec text (drop (S idx) text) (idx + 1)) as (Hr & _).
  - f_equal. lia.
  - lia.
  - lia.
Qed.

(** ** The forward pass keeps the table a table of paths *)

Section Forward.

Variable Math_log : float → float.
Variables (text : jsstring) (trie : Trie) (posMap : PosMap) (tm : TransitionMap).

Lemma TokenStep_range idx prevPos e nextPos tok :
  TokenStep text trie posMap tm idx prevPos e nextPos tok →
  idx < e ≤ length text ∧ morph tok = slice text idx e.
Proof.
  intros [c Hc Hws | c m endIdx tags posTag p Hc Hws Hin Htags Htag Hown Hp | c Hc Hws Hnil]; simpl.
  - pose proof (wsRunEnd_gt text idx c Hc Hws).
    pose proof (lookup_lt_Some _ _ _ Hc).
    destruct (wsRunEnd_spec text (drop idx text) idx eq_refl) as (? & _); [lia|].
    split; [lia|done].
  - apply findMorphsFromTrie_elem in Hin as (? & -> & _). done.
  - pose proof (lookup_lt_Some _ _ _ Hc). split; [lia|].
    by rewrite (slice_one _ _ _ Hc).
Qed.

Lemma Path_range p k s : Path text trie posMap tm p k s → p ≤ length text.
Proof.
  intros [|idx prevPos prev e nextPos tok sc _ Hstep]; [lia|].
  apply TokenStep_range in Hstep. lia.
Qed.

Lemma grows_refl vt : grows vt vt.
Proof. by intros i k. Qed.

Lemma grows_trans vt1 vt2 vt3 : grows vt1 vt2 → grows vt2 vt3 → grows vt1 vt3.
Proof. intros H12 H23 i k H. by apply H23, H12. Qed.

Lemma initTable_cell p k s :
  cell (initTable text) p k = Some s → p = 0 ∧ k = [] ∧ s = mkState 0%float None None.
Proof.
  unfold cell, initTable. destruct p as [|p].
  - rewrite list_lookup_insert_eq by (rewrite length_replicate; lia). simpl.
    case_bool_decide; [|done]. intros [= <-]. done.
  - rewrite list_lookup_insert_ne by done.
    destruct (replicate (length text + 1) [] !! S p) as [row|] eqn:Hrow; [|done].
    apply lookup_replicate in Hrow as [-> _]. done.
Qed.

Lemma initTable_ok : TableOk text trie posMap tm (initTable text).
Proof.
  split.
  - unfold initTable. by rewrite length_insert, length_replicate.
  - intros p k s (-> & -> & ->)%initTable_cell. constructor.
Qed.

Lemma initTable_start : cell (initTable text) 0 [] = Some (mkState 0%float None None).
Proof.
  unfold cell, initTable.
  rewrite list_lookup_insert_eq by (rewrite length_replicate; lia). done.
Qed.

Lemma TokenStep_key idx prevPos e nextPos tok :
  TokenStep text trie posMap tm idx prevPos e nextPos tok →
  inherited prevPos = false → inherited nextPos = false.
Proof. by intros []. Qed.

(** No state is stored under a name of [Object.prototype]. *)
Lemma Path_key_own p k s : Path text trie posMap tm p k s → inherited k = false.
Proof.
  induction 1 as [|idx prevPos prev e nextPos tok sc _ IH Hstep]; [done|].
  by eapply TokenStep_key.
Qed.

Lemma TableOk_key_own vt p k :
  TableOk text trie posMap tm vt → is_Some (cell vt p k) → inherited k = false.
Proof. intros [_ Hpaths] [s Hs]. eapply Path_key_own. by apply Hpaths. Qed.

(** A proposal that extends a path is stored or discarded; either way the
    table stays a table of paths and the target cell is populated. *)
Lemma update_ok vt nextIdx nextPos prevState tok addScore lastPos prevIdx :
  TableOk text trie posMap tm vt →
  (∀ sc, Path text trie posMap tm nextIdx nextPos (mkState sc (Some prevState) (Some tok))) →
  ∃ vt', updateViterbiTable vt nextIdx nextPos prevState tok addScore lastPos prevIdx = Some vt'
       ∧ TableOk text trie posMap tm vt' ∧ grows vt vt'
       ∧ is_Some (cell vt' nextIdx nextPos).
Proof.
  intros [Hlen Hpaths] Hnew.
  pose proof (Path_range _ _ _ (Hnew 0%float)) as Hr.
  pose proof (Path_key_own _ _ _ (Hnew 0%float)) as Hown.
  destruct (updateViterbiTable_total vt nextIdx nextPos prevState tok addScore lastPos prevIdx)
    as [vt' Hu]; [lia|].
  exists vt'. split; [done|].
  destruct (updateViterbiTable_cell _ _ _ _ _ _ _ _ _ Hu) as (Hlen' & _ & Hframe & Htarget & _).
  rewrite Hown in Htarget.
  assert (Hsome : is_Some (cell vt' nextIdx nextPos)).
  { rewrite Htarget. destruct (cell vt nextIdx nextPos) as [old|]; [|by eexists].
    destruct (score old <? _)%float; by eexists. }
  split; [|split; [|done]].
  - split; [lia|]. intros p k s Hc.
    destruct (decide ((p, k) = (nextIdx, nextPos))) as [[= -> ->]|Hne].
    + rewrite Htarget in Hc.
      destruct (cell vt nextIdx nextPos) as [old|] eqn:Hold.
      * destruct (score old <? _)%float; inversion Hc; subst s; [apply Hnew|by apply Hpaths].
      * inversion Hc; subst s. apply Hnew.
    + rewrite Hframe in Hc by done. by apply Hpaths.
  - intros i k Hc.
    destruct (decide ((i, k) = (nextIdx, nextPos))) as [[= -> ->]|Hne]; [done|].
    by rewrite Hframe.
Qed.

(** A proposal under a name of [Object.prototype] leaves a table of paths
    as it is. *)
Lemma update_inherited vt nextIdx nextPos prevState tok addScore lastPos prevIdx :
  TableOk text trie posMap tm vt → nextIdx ≤ length text → inherited nextPos = true →
  updateViterbiTable vt nextIdx nextPos prevState tok addScore lastPos prevIdx = Some vt.
Proof.
  intros Hok Hle Hinh. unfold updateViterbiTable.
  destruct (lookup_lt_is_Some_2 vt nextIdx) as [row Hrow]; [destruct Hok; lia|].
  rewrite Hrow. simpl. rewrite (row_read_cell vt nextIdx row nextPos Hrow).
  destruct (cell vt nextIdx nextPos) as [old|] eqn:Hold; [|by rewrite Hinh].
  pose proof (TableOk_key_own vt nextIdx nextPos Hok (mk_is_Some _ _ Hold)). congruence.
Qed.

Lemma StepsDone_grows idx prevPos vt vt' :
  StepsDone text trie posMap tm idx prevPos vt → grows vt vt' →
  StepsDone text trie posMap tm idx prevPos vt'.
Proof. intros Hd Hg e nextPos tok Hstep. by eapply Hg, Hd. Qed.

(** Rule 2 for one tag: the loop body never throws, and stores or keeps a
    state under the tag unless it names a property of [Object.prototype]. *)
Lemma proposeTag_ok vt idx prevPos prevState c m e tags posTag :
  TableOk text trie posMap tm vt →
  Path text trie posMap tm idx prevPos prevState →
  text !! idx = Some c → is_ws c = false →
  mkFound m e ∈ findMorphsFromTrie trie text idx →
  posMap !! m = Some tags → posTag ∈ tags →
  ∃ vt', proposeTag Math_log tm prevPos prevState m e idx posTag vt = Some vt'
       ∧ TableOk text trie posMap tm vt' ∧ grows vt vt'
       ∧ (inherited posTag = false → is_Some (cell vt' e posTag)).
Proof.
  intros Hok Hpath Hc Hws Hin Htags Htag. unfold proposeTag.
  pose proof (Path_key_own _ _ _ Hpath) as Hprev.
  pose proof (proj1 (findMorphsFromTrie_elem _ _ _ _ _) Hin) as (Hr & _).
  destruct (transitionProb tm prevPos posTag) as [p| |] eqn:Hp.
  - destruct (inherited posTag) eqn:Hinh.
    + rewrite update_inherited by (done || lia).
      exists vt. split; [done|]. split; [done|]. split; [apply grows_refl|done].
    + edestruct update_ok as (vt' & -> & Hok' & Hg & Hsome); [exact Hok| |by exists vt'].
      intros sc. eapply path_step; [exact Hpath|]. by eapply step_match.
  - destruct (lookup_lt_is_Some_2 vt e) as [row ->]; [destruct Hok; lia|]. simpl.
    exists vt. split; [done|]. split; [done|]. split; [apply grows_refl|].
    apply transitionProb_inherited in Hp. congruence.
  - by destruct (transitionProb_local tm prevPos posTag Hprev).
Qed.

Lemma proposeTags_ok vt idx prevPos prevState c m e tags :
  TableOk text trie posMap tm vt →
  Path text trie posMap tm idx prevPos prevState →
  text !! idx = Some c → is_ws c = false →
  mkFound m e ∈ findMorphsFromTrie trie text idx →
  posTags posMap m = Some tags →
  ∃ vt', for_each tags (proposeTag Math_log tm prevPos prevState m e idx) vt = Some vt'
       ∧ TableOk text trie posMap tm vt' ∧ grows vt vt'
       ∧ ∀ posTag, posTag ∈ tags → inherited posTag = false →
           is_Some (cell vt' e posTag).
Proof.
  intros Hok Hpath Hc Hws Hin Htags.
  apply (for_each_inv
    (λ visited vt', TableOk text trie posMap tm vt' ∧ grows vt vt'
                    ∧ ∀ posTag, posTag ∈ visited → inherited posTag = false →
                        is_Some (cell vt' e posTag))).
  - split; [done|]. split; [apply grows_refl|]. by intros ? ?%elem_of_nil.
  - intros visited posTag vt1 [rest Hl] (Hok1 & Hg1 & Hdone).
    assert (Hin' : posTag ∈ tags).
    { rewrite Hl. apply elem_of_app. right. apply list_elem_of_here. }
    destruct (proposeTag_ok vt1 idx prevPos prevState c m e tags posTag)
      as (vt2 & Hrun & Hok2 & Hg2 & Hcell); try done.
    { by eapply posTags_elem. }
    exists vt2. split; [done|]. split; [done|]. split; [by eapply grows_trans|].
    intros p [Hp| ->%list_elem_of_singleton]%elem_of_app Hown; [|by apply Hcell].
    by apply Hg2, Hdone.
Qed.

(** The loop over the matches of the trie: it throws exactly at a morph
    whose tags cannot be read. *)
Lemma proposeFound_spec vt idx prevPos prevState c :
  TableOk text trie posMap tm vt →
  Path text trie posMap tm idx prevPos prevState →
  text !! idx = Some c → is_ws c = false →
  match for_each (findMorphsFromTrie trie text idx) (λ f vt,
          tags ← posTags posMap (found_morph f);
          for_each tags
            (proposeTag Math_log tm prevPos prevState (found_morph f) (found_end f) idx)
            vt) vt with
  | Some vt' =>
      TableOk text trie posMap tm vt' ∧ grows vt vt'
      ∧ ∀ f, f ∈ findMorphsFromTrie trie text idx →
          ∃ tags, posTags posMap (found_morph f) = Some tags
                ∧ ∀ posTag, posTag ∈ tags → inherited posTag = false →
                    is_Some (cell vt' (found_end f) posTag)
  | None => ∃ f, f ∈ findMorphsFromTrie trie text idx
               ∧ posTags posMap (found_morph f) = None
  end.
Proof.
  intros Hok Hpath Hc Hws.
  apply (for_each_match
    (λ visited vt', TableOk text trie posMap tm vt' ∧ grows vt vt'
                    ∧ ∀ f, f ∈ visited →
                        ∃ tags, posTags posMap (found_morph f) = Some tags
                              ∧ ∀ posTag, posTag ∈ tags → inherited posTag = false →
                                  is_Some (cell vt' (found_end f) posTag))
    (λ f, posTags posMap (found_morph f) = None)).
  - split; [done|]. split; [apply grows_refl|]. by intros ? ?%elem_of_nil.
  - intros visited f vt1 [rest Hl] (Hok1 & Hg1 & Hdone).
    assert (Hin : f ∈ findMorphsFromTrie trie text idx).
    { rewrite Hl. apply elem_of_app. right. apply list_elem_of_here. }
    destruct (posTags posMap (found_morph f)) as [tags|] eqn:Htags; simpl; [|done].
    destruct f as [m e]. simpl in *.
    destruct (proposeTags_ok vt1 idx prevPos prevState c m e tags)
      as (vt2 & -> & Hok2 & Hg2 & Hcells); try done.
    split; [done|]. split; [by eapply grows_trans|].
    intros f' [Hf'| ->%list_elem_of_singleton]%elem_of_app.
    + destruct (Hdone f' Hf') as (tags' & Htags' & Hcells').
      exists tags'. split; [done|]. intros p Hp Hown. by eapply Hg2, Hcells'.
    + exists tags. by split.
Qed.

(** The body of the loop over the keys of row [idx], from a table of paths:
    it throws exactly when the PosMap cannot be read at a morph the trie
    emits there; otherwise the table stays a table of paths and every
    proposal from the state has its target cell populated. *)
Lemma stepState_spec vt idx prevPos prevState :
  TableOk text trie posMap tm vt →
  cell vt idx prevPos = Some prevState →
  idx < length text →
  match stepState Math_log text trie posMap tm findMorphsFromTrie idx prevPos vt with
  | Some vt' =>
      TableOk text trie posMap tm vt' ∧ grows vt vt'
      ∧ StepsDone text trie posMap tm idx prevPos vt'
      ∧ ¬ throwsAt text trie posMap idx
  | None => throwsAt text trie posMap idx
  end.
Proof.
  intros Hok Hcell Hlt.
  assert (Hpath : Path text trie posMap tm idx prevPos prevState) by (by apply Hok).
  destruct (lookup_lt_is_Some_2 text idx Hlt) as [c Hc].
  unfold stepState. rewrite Hcell, Hc. simpl.
  destruct (is_ws c) eqn:Hws.
  - edestruct update_ok as (vt' & -> & Hok' & Hg & Hsome); [exact Hok| |].
    + intros sc. eapply path_step; [exact Hpath|]. by eapply step_whitespace.
    + split; [done|]. split; [done|]. split.
      * intros e nextPos tok Hstep.
        destruct Hstep as [c' Hc' Hws'|c' m e tags posTag p Hc' Hws'|c' Hc' Hws'];
          [done|congruence..].
      * intros (c' & f & Hc' & Hws' & _). congruence.
  - pose proof (proposeFound_spec vt idx prevPos prevState c Hok Hpath Hc Hws) as Hfound.
    destruct (for_each (findMorphsFromTrie trie text idx) _ vt) as [vt1|]; simpl.
    + destruct Hfound as (Hok1 & Hg1 & Hcells).
      assert (Hsafe : ¬ throwsAt text trie posMap idx).
      { intros (c' & f & _ & _ & Hf & Hnone & Hinh).
        destruct (Hcells f Hf) as (tags & Htags & _).
        assert (posTags posMap (found_morph f) = None) by (by apply posTags_None).
        congruence. }
      case_bool_decide as Hnil; simpl.
      * edestruct update_ok as (vt' & -> & Hok' & Hg & Hsome); [exact Hok1| |].
        -- intros sc. eapply path_step; [exact Hpath|]. by eapply step_skip.
        -- split; [done|]. split; [by eapply grows_trans|]. split; [|done].
           intros e nextPos tok Hstep.
           destruct Hstep as [c' Hc' Hws'|c' m e tags posTag p Hc' Hws' Hin|c' Hc' Hws'];
             [congruence| |done].
           rewrite Hnil in Hin. by apply elem_of_nil in Hin.
      * split; [done|]. split; [done|]. split; [|done].
        intros e nextPos tok Hstep.
        destruct Hstep
          as [c' Hc' Hws'|c' m e tags posTag p Hc' Hws' Hin Htags Htag Hown Hp|c' Hc' Hws' Hno];
          [congruence| |done].
        destruct (Hcells (mkFound m e) Hin) as (tags' & Htags' & Hcells').
        simpl in *. rewrite (posTags_Some _ _ _ Htags) in Htags'.
        inversion Htags'; subst tags'. by apply Hcells'.
    + destruct Hfound as (f & Hf & Hnone). apply posTags_None in Hnone as [Hnone Hinh].
      by exists c, f.
Qed.

(** The loop over the keys of row [idx]. *)
Lemma stepRow_spec vt idx :
  TableOk text trie posMap tm vt →
  idx < length text →
  match for_each (forin_keys (default [] (vt !! idx)))
          (stepState Math_log text trie posMap tm findMorphsFromTrie idx) vt with
  | Some vt' =>
      TableOk text trie posMap tm vt' ∧ grows vt vt'
      ∧ ∀ k, is_Some (cell vt idx k) →
          StepsDone text trie posMap tm idx k vt' ∧ ¬ throwsAt text trie posMap idx
  | None => throwsAt text trie posMap idx ∧ ∃ k, is_Some (cell vt idx k)
  end.
Proof.
  intros Hok Hlt.
  assert (Hkeys : ∀ k, k ∈ forin_keys (default [] (vt !! idx)) ↔ is_Some (cell vt idx k)).
  { intros k. rewrite forin_keys_elem, <- row_get_is_Some. unfold cell.
    destruct (vt !! idx) as [row|]; simpl; [done|]. split; by intros []. }
  pose proof (for_each_match
    (λ visited vt', TableOk text trie posMap tm vt' ∧ grows vt vt'
                    ∧ ∀ k, k ∈ visited →
                        StepsDone text trie posMap tm idx k vt'
                        ∧ ¬ throwsAt text trie posMap idx)
    (λ k, throwsAt text trie posMap idx ∧ is_Some (cell vt idx k))
    (forin_keys (default [] (vt !! idx)))
    (stepState Math_log text trie posMap tm findMorphsFromTrie idx) vt) as Hloop.
  destruct (for_each _ _ vt) as [vt'|].
  - destruct Hloop as (Hok' & Hg & Hdone).
    + split; [done|]. split; [apply grows_refl|]. by intros ? ?%elem_of_nil.
    + intros visited k vt1 [rest Hl] (Hok1 & Hg1 & Hdone).
      assert (Hk : is_Some (cell vt idx k)).
      { apply Hkeys. rewrite Hl. apply elem_of_app. right. apply list_elem_of_here. }
      destruct (Hg1 _ _ Hk) as [prevState Hcell].
      pose proof (stepState_spec vt1 idx k prevState Hok1 Hcell Hlt) as Hstep.
      destruct (stepState _ _ _ _ _ _ idx k vt1) as [vt2|]; [|by split].
      destruct Hstep as (Hok2 & Hg2 & Hsteps & Hsafe).
      split; [done|]. split; [by eapply grows_trans|].
      intros k' [Hk'| ->%list_elem_of_singleton]%elem_of_app; [|done].
      destruct (Hdone k' Hk') as [Hd Hs]. split; [|done]. by eapply StepsDone_grows.
    + split; [done|]. split; [done|]. intros k Hk. by apply Hdone, Hkeys.
  - destruct Hloop as (k & Hk & Hthrow & Hcell).
    + split; [done|]. split; [apply grows_refl|]. by intros ? ?%elem_of_nil.
    + intros visited k vt1 [rest Hl] (Hok1 & Hg1 & Hdone).
      assert (Hk : is_Some (cell vt idx k)).
      { apply Hkeys. rewrite Hl. apply elem_of_app. right. apply list_elem_of_here. }
      destruct (Hg1 _ _ Hk) as [prevState Hcell].
      pose proof (stepState_spec vt1 idx k prevState Hok1 Hcell Hlt) as Hstep.
      destruct (stepState _ _ _ _ _ _ idx k vt1) as [vt2|]; [|by split].
      destruct Hstep as (Hok2 & Hg2 & Hsteps & Hsafe).
      split; [done|]. split; [by eapply grows_trans|].
      intros k' [Hk'| ->%list_elem_of_singleton]%elem_of_app; [|done].
      destruct (Hdone k' Hk') as [Hd Hs]. split; [|done]. by eapply StepsDone_grows.
    + split; [done|]. by exists k.
Qed.

(** Every path that ends at or before a position whose proposals are all
    made is in the table. *)
Lemma explored_paths n vt p k s :
  is_Some (cell vt 0 []) →
  (∀ idx k, idx < n → is_Some (cell vt idx k) → StepsDone text trie posMap tm idx k vt) →
  Path text trie posMap tm p k s → p ≤ n → is_Some (cell vt p k).
Proof.
  intros Hinit Hdone Hpath. induction Hpath as [|idx prevPos prev e nextPos tok sc Hprev IH Hstep].
  - done.
  - intros He. pose proof (TokenStep_range _ _ _ _ _ Hstep) as [Hr _].
    eapply (Hdone idx prevPos); [lia|apply IH; lia|exact Hstep].
Qed.

(** The forward pass with the trie query: it returns a table of paths in
    which every proposal from a populated cell has its target populated,
    or it throws at a position that some path reaches. *)
Lemma forward_spec :
  match forward Math_log text trie posMap tm findMorphsFromTrie with
  | Some vt =>
      TableOk text trie posMap tm vt
      ∧ is_Some (cell vt 0 [])
      ∧ ∀ idx k, idx < length text → is_Some (cell vt idx k) →
          StepsDone text trie posMap tm idx k vt ∧ ¬ throwsAt text trie posMap idx
  | None =>
      ∃ idx k s, Path text trie posMap tm idx k s ∧ throwsAt text trie posMap idx
  end.
Proof.
  unfold forward.
  pose proof (for_each_match
    (λ visited vt, TableOk text trie posMap tm vt
                   ∧ is_Some (cell vt 0 [])
                   ∧ ∀ idx k, idx < length visited → is_Some (cell vt idx k) →
                       StepsDone text trie posMap tm idx k vt
                       ∧ ¬ throwsAt text trie posMap idx)
    (λ idx, ∃ k s, Path text trie posMap tm idx k s ∧ throwsAt text trie posMap idx)
    (seq 0 (length text))
    (λ idx vt, for_each (forin_keys (default [] (vt !! idx)))
                 (stepState Math_log text trie posMap tm findMorphsFromTrie idx) vt)
    (initTable text)) as Hloop.
  assert (H0 : TableOk text trie posMap tm (initTable text)
               ∧ is_Some (cell (initTable text) 0 [])
               ∧ ∀ idx k, idx < length (@nil nat) → is_Some (cell (initTable text) idx k) →
                   StepsDone text trie posMap tm idx k (initTable text)
                   ∧ ¬ throwsAt text trie posMap idx).
  { split; [apply initTable_ok|]. split; [rewrite initTable_start; by eexists|].
    simpl. intros; lia. }
  assert (Hbody : ∀ visited idx vt, (∃ rest, seq 0 (length text) = visited ++ idx :: rest) →
            TableOk text trie posMap tm vt
            ∧ is_Some (cell vt 0 [])
            ∧ (∀ idx k, idx < length visited → is_Some (cell vt idx k) →
                 StepsDone text trie posMap tm idx k vt ∧ ¬ throwsAt text trie posMap idx) →
            match for_each (forin_keys (default [] (vt !! idx)))
                    (stepState Math_log text trie posMap tm findMorphsFromTrie idx) vt with
            | Some vt' =>
                TableOk text trie posMap tm vt'
                ∧ is_Some (cell vt' 0 [])
                ∧ ∀ idx0 k, idx0 < length (visited ++ [idx]) → is_Some (cell vt' idx0 k) →
                    StepsDone text trie posMap tm idx0 k vt'
                    ∧ ¬ throwsAt text trie posMap idx0
            | None => ∃ k s, Path text trie posMap tm idx k s ∧ throwsAt text trie posMap idx
            end).
  { intros visited idx vt [rest Hl] (Hok & Hinit & Hdone).
    apply seq_split_inv in Hl as [-> Hlt].
    pose proof (stepRow_spec vt (length visited) Hok Hlt) as Hrow.
    destruct (for_each _ _ vt) as [vt'|].
    - destruct Hrow as (Hok' & Hg & Hrow).
      split; [done|]. split; [by apply Hg|].
      intros idx k Hidx [s Hs]. rewrite length_app in Hidx. simpl in Hidx.
      assert (Hbefore : is_Some (cell vt idx k)).
      { apply (explored_paths (length visited) vt idx k s Hinit); [|by apply Hok'|lia].
        intros idx0 k0 H1 H2. by apply Hdone. }
      destruct (decide (idx = length visited)) as [->|Hne].
      + by apply Hrow.
      + destruct (Hdone idx k) as [Hd Hs']; [lia|done|].
        split; [|done]. by eapply StepsDone_grows.
    - destruct Hrow as (Hthrow & k & [s Hs]). exists k, s. split; [|done]. by apply Hok. }
  destruct (for_each _ _ (initTable text)) as [vt|].
  - destruct (Hloop H0 Hbody) as (Hok & Hinit & Hdone).
    split; [done|]. split; [done|]. rewrite length_seq in Hdone. done.
  - destruct (Hloop H0 Hbody) as (idx & _ & k & s & Hpath & Hthrow). by exists idx, k, s.
Qed.

Lemma forward_TableOk vt :
  forward Math_log text trie posMap tm findMorphsFromTrie = Some vt →
  TableOk text trie posMap tm vt.
Proof. intros H. pose proof forward_spec as Hs. rewrite H in Hs. apply Hs. Qed.

(** The populated cells of the table are the ends of the paths. *)
Lemma forward_cells vt p k :
  forward Math_log text trie posMap tm findMorphsFromTrie = Some vt →
  is_Some (cell vt p k) ↔ ∃ s, Path text trie posMap tm p k s.
Proof.
  intros H. pose proof forward_spec as Hs. rewrite H in Hs.
  destruct Hs as (Hok & Hinit & Hdone). split.
  - intros [s Hc]. exists s. by apply Hok.
  - intros [s Hpath].
    apply (explored_paths (length text) vt p k s Hinit); [|done|by eapply Path_range].
    intros idx k0 H1 H2. by apply Hdone.
Qed.

(** The forward pass returns exactly when no path reaches a position where
    it throws. *)
Lemma forward_total :
  is_Some (forward Math_log text trie posMap tm findMorphsFromTrie)
  ↔ ∀ idx k s, Path text trie posMap tm idx k s → ¬ throwsAt text trie posMap idx.
Proof.
  pose proof forward_spec as Hs. split.
  - intros [vt Hvt] idx k s Hpath Hthrow. rewrite Hvt in Hs.
    destruct Hs as (Hok & Hinit & Hdone).
    assert (Hlt : idx < length text).
    { destruct Hthrow as (c & f & Hc & _). by eapply lookup_lt_Some. }
    destruct (Hdone idx k Hlt) as [_ Hsafe]; [|done].
    apply (forward_cells vt idx k Hvt). by exists s.
  - intros Hsafe.
    destruct (forward Math_log text trie posMap tm findMorphsFromTrie) as [vt|]; [by eexists|].
    destruct Hs as (idx & k & s & Hpath & Hthrow). by destruct (Hsafe idx k s Hpath).
Qed.

(** From a state of a path before the end of the text some proposal can be
    stored, when every morph the trie emits has a tag that names no
    property of [Object.prototype]. *)
Lemma TokenStep_exists idx prevPos :
  covers_own text trie posMap → idx < length text → inherited prevPos = false →
  ∃ e nextPos tok, TokenStep text trie posMap tm idx prevPos e nextPos tok.
Proof.
  intros Hcov Hlt Hprev. destruct (lookup_lt_is_Some_2 text idx Hlt) as [c Hc].
  destruct (is_ws c) eqn:Hws.
  - eexists _, _, _. by eapply step_whitespace.
  - destruct (findMorphsFromTrie trie text idx) as [|[m e] found] eqn:Hfound.
    + eexists _, _, _. by eapply step_skip.
    + assert (Hin : mkFound m e ∈ findMorphsFromTrie trie text idx).
      { rewrite Hfound. apply list_elem_of_here. }
      destruct (Hcov idx _ Hin) as (tags & posTag & Htags & Htag & Hown). simpl in Htags.
      eexists _, _, _. eapply step_match; try done.
      by apply transitionProb_own.
Qed.

(** Forward progress: with such a cover the last row is populated. *)
Lemma forward_reaches_end vt :
  covers_own text trie posMap →
  forward Math_log text trie posMap tm findMorphsFromTrie = Some vt →
  ∃ k, is_Some (cell vt (length text) k).
Proof.
  intros Hcov H. pose proof forward_spec as Hs. rewrite H in Hs.
  destruct Hs as (Hok & Hinit & Hdone).
  assert (Hgen : ∀ d p k, length text - p ≤ d → p ≤ length text → is_Some (cell vt p k) →
            ∃ k', is_Some (cell vt (length text) k')).
  { induction d as [|d IH]; intros p k Hd Hp Hc.
    - assert (p = length text) as -> by lia. by exists k.
    - destruct (decide (p = length text)) as [->|Hne]; [by exists k|].
      destruct (TokenStep_exists p k Hcov) as (e & nextPos & tok & Hstep); [lia| |].
      { by eapply TableOk_key_own. }
      pose proof (TokenStep_range _ _ _ _ _ Hstep) as [Hr _].
      destruct (Hdone p k) as [Hd' _]; [lia|done|].
      apply (IH e nextPos); [lia|lia|]. by eapply Hd'. }
  apply (Hgen (length text) 0 []); [lia|lia|done].
Qed.

End Forward.

(** ** The best end state *)

Lemma pickBest_fold row keys :
  ∀ best,
    (∀ k, k ∈ keys → is_Some (row_get row k)) →
    (∀ b, best = Some b → ∃ k, row_get row k = Some b) →
    let r := foldl (λ best posTag,
               match row_get row posTag with
               | None => best
               | Some cand =>
                   match best with
                   | None => Some cand
                   | Some b => if (score b <? score cand)%float then Some cand else best
                   end
               end) best keys in
    (∀ b, r = Some b → ∃ k, row_get row k = Some b)
    ∧ (keys ≠ [] ∨ is_Some best → is_Some r).
Proof.
  induction keys as [|k keys IH]; intros best Hkeys Hbest; simpl.
  - split; [done|]. intros [?|?]; done.
  - destruct (Hkeys k) as [cand Hcand]; [apply list_elem_of_here|]. rewrite Hcand.
    match goal with |- context [foldl _ ?b keys] => set (best' := b) end.
    assert (Hb' : ∀ b, best' = Some b → ∃ k, row_get row k = Some b).
    { unfold best'. intros b. destruct best as [b0|].
      - destruct (score b0 <? score cand)%float; intros [= <-]; eauto.
      - intros [= <-]. eauto. }
    assert (Hs' : is_Some best').
    { unfold best'. destruct best as [b0|]; [|by eexists].
      destruct (score b0 <? score cand)%float; by eexists. }
    destruct (IH best') as [H1 H2]; [|done|].
    { intros k' Hk'. apply Hkeys. by apply list_elem_of_further. }
    split; [done|]. intros _. apply H2. by right.
Qed.

Lemma pickBest_Some row :
  row ≠ [] → ∃ k s, pickBest row = Some s ∧ row_get row k = Some s.
Proof.
  intros Hne. unfold pickBest.
  destruct (pickBest_fold row (forin_keys row) None) as [H1 H2].
  - intros k Hk. by apply row_get_is_Some, forin_keys_elem.
  - done.
  - destruct H2 as [s Hs].
    + left. destruct row as [|[k v] row]; [done|].
      assert (Hk : k ∈ forin_keys ((k, v) :: row))
        by (apply forin_keys_elem; simpl; apply list_elem_of_here).
      intros Hnil. rewrite Hnil in Hk. by apply elem_of_nil in Hk.
    + destruct (H1 s Hs) as [k Hk]. exists k, s. done.
Qed.

(** ** The tokens of a path *)

Lemma collectTokens_step sc prev tok :
  collectTokens (mkState sc (Some prev) (Some tok)) = tok :: collectTokens prev.
Proof. done. Qed.

Lemma Forall_slice (P : N → Prop) s i j :
  (∀ k c, i ≤ k < j → s !! k = Some c → P c) → Forall P (slice s i j).
Proof.
  intros H. apply Forall_lookup. intros k c Hk. unfold slice in Hk.
  apply lookup_take_Some in Hk as [Hk Hlt]. rewrite lookup_drop in Hk.
  apply (H (i + k)); [lia|done].
Qed.

Lemma ws_seg_snoc ts t :
  ws_seg ts → token_ws_ok t →
  (∀ l, last ts = Some l → ¬ (type l = KWhitespace ∧ type t = KWhitespace)) →
  ws_seg (ts ++ [t]).
Proof.
  induction ts as [|t1 ts IH]; simpl; [done|].
  intros (Hok1 & Hadj & Hseg) Hok Hlast. split; [done|].
  destruct ts as [|t2 ts]; simpl in *.
  - split; [by apply Hlast|done].
  - split; [done|]. by apply IH.
Qed.

Lemma ws_seg_Forall ts : ws_seg ts → Forall token_ws_ok ts.
Proof.
  induction ts as [|t ts IH]; simpl; [constructor|].
  intros (Hok & _ & Hseg). constructor; [done|by apply IH].
Qed.

Section Paths.

Variables (text : jsstring) (trie : Trie) (posMap : PosMap) (tm : TransitionMap).

(** Coverage along a path: the tokens spell the text up to the position. *)
Lemma Path_surface p k s :
  Path text trie posMap tm p k s →
  surface (reverse (collectTokens s)) = take p text.
Proof.
  induction 1 as [|idx prevPos prev e nextPos tok sc Hpath IH Hstep]; [done|].
  rewrite collectTokens_step, reverse_cons. unfold surface in *.
  rewrite fmap_app, concat_app, IH. simpl. rewrite app_nil_r.
  apply TokenStep_range in Hstep as [Hr ->].
  rewrite <- !slice_0. apply slice_app; lia.
Qed.

Lemma TokenStep_ws_ok idx prevPos e nextPos tok :
  no_ws_morphs trie →
  TokenStep text trie posMap tm idx prevPos e nextPos tok →
  token_ws_ok tok
  ∧ (type tok = KWhitespace ↔ ∃ c, text !! idx = Some c ∧ is_ws c = true)
  ∧ (type tok = KWhitespace → ∀ c, text !! e = Some c → is_ws c = false).
Proof.
  intros Hno Hstep. pose proof (TokenStep_range _ _ _ _ _ _ _ _ _ Hstep) as [Hr Hm].
  assert (Hne : morph tok ≠ []).
  { intros Hnil. rewrite Hm in Hnil. apply (f_equal length) in Hnil.
    rewrite slice_length in Hnil by lia. simpl in Hnil. lia. }
  split; [split; [done|]|].
  - destruct Hstep as [c Hc Hws | c m endIdx tags posTag p Hc Hws Hin Htags Htag Hown Hp | c Hc Hws Hnil];
      simpl in *.
    + split; [|done]. intros _.
      pose proof (lookup_lt_Some _ _ _ Hc).
      destruct (wsRunEnd_spec text (drop idx text) idx eq_refl) as (_ & Hall & _); [lia|].
      by apply Forall_slice.
    + split; [done|]. intros _.
      apply findMorphsFromTrie_elem in Hin as (_ & _ & Hmem). by apply Hno.
    + split; [done|]. intros _. by constructor.
  - destruct Hstep as [c Hc Hws | c m endIdx tags posTag p Hc Hws Hin Htags Htag Hown Hp | c Hc Hws Hnil];
      simpl in *.
    + split.
      * split; [by eauto|done].
      * intros _. pose proof (lookup_lt_Some _ _ _ Hc).
        destruct (wsRunEnd_spec text (drop idx text) idx eq_refl) as (_ & _ & Hend); [lia|].
        done.
    + split; [|done]. split; [done|]. intros (c' & Hc' & Hws'). congruence.
    + split; [|done]. split; [done|]. intros (c' & Hc' & Hws'). congruence.
Qed.

(** The whitespace discipline along a path. *)
Lemma Path_ws_seg p k s :
  no_ws_morphs trie →
  Path text trie posMap tm p k s →
  ws_seg (reverse (collectTokens s))
  ∧ (∀ l, last (reverse (collectTokens s)) = Some l → type l = KWhitespace →
       ∀ c, text !! p = Some c → is_ws c = false).
Proof.
  intros Hno. induction 1 as [|idx prevPos prev e nextPos tok sc Hpath [IHseg IHlast] Hstep].
  - split; [done|]. simpl. done.
  - rewrite collectTokens_step, reverse_cons.
    destruct (TokenStep_ws_ok _ _ _ _ _ Hno Hstep) as (Hok & Hws & Hend).
    split.
    + apply ws_seg_snoc; [done..|].
      intros l Hl [Hlws Htws]. apply Hws in Htws as (c & Hc & Hcws).
      rewrite (IHlast l Hl Hlws c Hc) in Hcws. done.
    + intros l Hl Hlws. rewrite last_snoc in Hl. inversion Hl; subst l. by apply Hend.
Qed.

End Paths.

(** ** Maximal whitespace runs of a disciplined token sequence *)

Lemma surface_cons t ts : surface (t :: ts) = morph t ++ surface ts.
Proof. done. Qed.

Lemma ws_prefix_unique (l1 r1 l2 r2 : jsstring) :
  l1 ++ r1 = l2 ++ r2 →
  Forall (λ c, is_ws c = true) l1 → Forall (λ c, is_ws c = true) l2 →
  (∀ c, head r1 = Some c → is_ws c = false) →
  (∀ c, head r2 = Some c → is_ws c = false) →
  l1 = l2 ∧ r1 = r2.
Proof.
  revert l2. induction l1 as [|a l1 IH]; intros [|b l2] Heq H1 H2 Hr1 Hr2; simpl in *.
  - done.
  - subst r1. apply Forall_cons in H2 as [Hb _]. rewrite (Hr1 b eq_refl) in Hb. done.
  - subst r2. apply Forall_cons in H1 as [Ha _]. rewrite (Hr2 a eq_refl) in Ha. done.
  - inversion Heq; subst b.
    apply Forall_cons in H1 as [_ H1]. apply Forall_cons in H2 as [_ H2].
    destruct (IH l2) as [-> ->]; done.
Qed.

Lemma ws_seg_head t ts :
  ws_seg (t :: ts) → type t ≠ KWhitespace →
  ∀ c, head (surface (t :: ts)) = Some c → is_ws c = false.
Proof.
  intros ((Hne & _ & Hnws) & _) Hty c. rewrite surface_cons.
  specialize (Hnws Hty). destruct (morph t) as [|c0 m]; [done|]. simpl.
  intros [= <-]. by apply Forall_cons in Hnws as [? _].
Qed.

(** In a disciplined token sequence every maximal whitespace run of the
    surface text is the span of one whitespace token, at that place. *)
Lemma ws_seg_run ts :
  ws_seg ts →
  ∀ pre run post, maximal_ws_run (surface ts) pre run post →
    ∃ ts1 t ts2, ts = ts1 ++ t :: ts2 ∧ type t = KWhitespace ∧ morph t = run
               ∧ surface ts1 = pre ∧ surface ts2 = post.
Proof.
  induction ts as [|t ts IH]; intros Hseg pre run post (Heq & Hne & Hws & Hpre & Hpost).
  - symmetry in Heq. apply app_eq_nil in Heq as [_ [? _]%app_eq_nil]. done.
  - pose proof Hseg as ((Hm & Hwsok & Hnws) & Hadj & Hseg').
    rewrite surface_cons in Heq.
    assert (Hrec : ∀ k, pre = morph t ++ k → surface ts = k ++ run ++ post →
              ∃ ts1 t0 ts2, t :: ts = ts1 ++ t0 :: ts2 ∧ type t0 = KWhitespace
                          ∧ morph t0 = run ∧ surface ts1 = pre ∧ surface ts2 = post).
    { intros k Hk1 Hk2.
      destruct (IH Hseg' k run post) as (ts1 & t0 & ts2 & -> & Ht0 & Hm0 & Hs1 & Hs2).
      - split; [done|]. split; [done|]. split; [done|]. split; [|done].
        intros c Hc. apply Hpre. rewrite Hk1, last_app, Hc. done.
      - exists (t :: ts1), t0, ts2. split; [done|]. split; [done|]. split; [done|].
        split; [|done]. rewrite surface_cons, Hs1. done. }
    apply app_eq_inv in Heq as [(k & Hk1 & Hk2) | (k & Hk1 & Hk2)]; [|by apply (Hrec k)].
    destruct k as [|x k].
    { apply (Hrec []); [by rewrite app_nil_r in *|done]. }
    destruct run as [|r run]; [done|]. simpl in Hk2. inversion Hk2; subst r.
    apply Forall_cons in Hws as [Hx Hrun].
    destruct (decide (type t = KWhitespace)) as [Hty|Hty].
    + specialize (Hwsok Hty). rewrite Hk1 in Hwsok.
      apply Forall_app in Hwsok as [Hpre_ws Hk_ws].
      assert (pre = []) as ->.
      { destruct (last pre) as [c|] eqn:Hl; [|by apply last_None].
        pose proof (Hpre c eq_refl) as Hc.
        apply last_Some in Hl as [pre' ->].
        apply Forall_app in Hpre_ws as [_ [Hc' _]%Forall_cons]. congruence. }
      simpl in Hk1.
      destruct (ws_prefix_unique (morph t) (surface ts) (x :: run) post)
        as [Hmt Hst].
      * rewrite Hk1. simpl. f_equal. done.
      * rewrite Hk1. done.
      * by constructor.
      * destruct ts as [|t2 ts]; [done|].
        apply ws_seg_head; [done|]. intros Ht2. by apply Hadj.
      * done.
      * exists [], t, ts. done.
    + specialize (Hnws Hty). rewrite Hk1 in Hnws.
      apply Forall_app in Hnws as [_ [Hx' _]%Forall_cons]. congruence.
Qed.

(** ** Dictionaries: the trie and the PosMap built from the same entries *)

Lemma trie_mem_empty w : trie_mem ∅ w = false.
Proof. destruct w as [|c w]; [done|]. simpl. by rewrite lookup_empty. Qed.

(** Inserting a non-empty morph adds it to the morphs of the trie, and
    nothing else. *)
Lemma insertMorph_mem chars :
  chars ≠ [] →
  ∀ node w, trie_mem (insertMorph chars node) w = true ↔
              w = chars ∨ trie_mem node w = true.
Proof.
  induction chars as [|ch rest IH]; [done|]. intros _ node w.
  destruct w as [|c w]; [simpl; naive_solver|].
  simpl. destruct (decide (c = ch)) as [->|Hne].
  - rewrite lookup_insert_eq. simpl.
    destruct (node !! ch) as [n0|] eqn:Hn0; simpl.
    + case_bool_decide as Hw; case_bool_decide as Hrest; subst; simpl.
      * naive_solver.
      * naive_solver.
      * naive_solver.
      * rewrite IH by done. naive_solver.
    + case_bool_decide as Hw; case_bool_decide as Hrest; subst; simpl.
      * naive_solver.
      * naive_solver.
      * rewrite trie_mem_empty. naive_solver.
      * rewrite IH by done. rewrite trie_mem_empty. naive_solver.
  - rewrite lookup_insert_ne by done. naive_solver.
Qed.

Lemma insertMorph_nil node : insertMorph [] node = node.
Proof. done. Qed.

(** The morphs of the trie built from a dictionary are the non-empty morphs
    of its entries. *)
Lemma buildMorphTrie_mem morphs w :
  trie_mem (buildMorphTrie morphs) w = true ↔ w ≠ [] ∧ w ∈ entry_morph <$> morphs.
Proof.
  unfold buildMorphTrie.
  assert (Hgen : ∀ root, trie_mem (foldl (λ root m, insertMorph (entry_morph m) root) root morphs) w
                   = true ↔ trie_mem root w = true ∨ (w ≠ [] ∧ w ∈ entry_morph <$> morphs)).
  { induction morphs as [|e morphs IH]; intros root; simpl.
    - rewrite elem_of_nil. naive_solver.
    - rewrite IH, elem_of_cons. destruct (decide (entry_morph e = [])) as [Hnil|Hne].
      + rewrite Hnil, insertMorph_nil. naive_solver.
      + rewrite insertMorph_mem by done. naive_solver. }
  rewrite Hgen, trie_mem_empty. naive_solver.
Qed.

(** One iteration of [buildPosMap]: it throws when the morph names a
    property of [Object.prototype] that the map does not own, and otherwise
    appends the tag to the tags of the morph unless it is among them. *)
Lemma buildPosMap_step (e : DictEntry) (posMap : PosMap) :
  match read posMap (entry_morph e) with
  | Own tags =>
      if bool_decide (entry_pos e ∈ tags) then Some posMap
      else Some (<[entry_morph e := tags ++ [entry_pos e]]> posMap)
  | Inherited => None
  | Undefined => Some (<[entry_morph e := [entry_pos e]]> posMap)
  end =
  if bool_decide (posMap !! entry_morph e = None) && inherited (entry_morph e) then None
  else Some (let tags := default [] (posMap !! entry_morph e) in
             if bool_decide (entry_pos e ∈ tags) then posMap
             else <[entry_morph e := tags ++ [entry_pos e]]> posMap).
Proof.
  unfold read. destruct (posMap !! entry_morph e) as [tags|]; simpl.
  - by case_bool_decide.
  - by destruct (inherited (entry_morph e)).
Qed.

Lemma PosMapOf_step (seen : list DictEntry) (posMap : PosMap) (e : DictEntry) :
  PosMapOf seen posMap →
  PosMapOf (seen ++ [e])
    (let tags := default [] (posMap !! entry_morph e) in
     if bool_decide (entry_pos e ∈ tags) then posMap
     else <[entry_morph e := tags ++ [entry_pos e]]> posMap).
Proof.
  intros Hinv m0. destruct e as [em ep]. simpl.
  pose proof (Hinv m0) as H0. pose proof (Hinv em) as He.
  case_bool_decide as Hdec.
  - destruct (posMap !! em) as [tags|] eqn:Hem; simpl in Hdec;
      [|by apply elem_of_nil in Hdec].
    destruct He as (Hnd & Hne & Htags).
    destruct (posMap !! m0) as [tags0|] eqn:Hm0.
    + destruct H0 as (Hnd0 & Hne0 & Htags0). split; [done|]. split; [done|].
      intros p. rewrite Htags0, elem_of_app, list_elem_of_singleton.
      split; [by left|]. intros [?|[= -> ->]]; [done|].
      rewrite Hem in Hm0. inversion Hm0; subst tags0. by apply Htags0.
    + rewrite fmap_app, elem_of_app. simpl. rewrite list_elem_of_singleton.
      intros [?| ->]; [done|]. congruence.
  - destruct (decide (em = m0)) as [->|Hm].
    + rewrite lookup_insert_eq. split; [|split].
      * destruct (posMap !! m0) as [tags|]; simpl in *.
        -- destruct H0 as (Hnd & _). apply NoDup_app. split; [done|].
           split; [|apply NoDup_singleton].
           intros x Hx ->%list_elem_of_singleton. done.
        -- apply NoDup_singleton.
      * by intros [_ ?]%app_eq_nil.
      * intros p. rewrite !elem_of_app, !list_elem_of_singleton.
        destruct (posMap !! m0) as [tags|]; simpl in *.
        -- destruct H0 as (_ & _ & Htags). rewrite Htags. naive_solver.
        -- split; [intros [?%elem_of_nil| ->]; [done|by right]|].
           intros [Hin|[= ->]]; [|by right].
           exfalso. apply H0. apply list_elem_of_fmap. by exists (mkDictEntry m0 p).
    + rewrite lookup_insert_ne by done.
      destruct (posMap !! m0) as [tags0|].
      * destruct H0 as (Hnd0 & Hne0 & Htags0). split; [done|]. split; [done|].
        intros p. rewrite Htags0, elem_of_app, list_elem_of_singleton.
        split; [by left|]. intros [?|[= -> ->]]; done.
      * rewrite fmap_app, elem_of_app. simpl. rewrite list_elem_of_singleton.
        intros [?| ->]; done.
Qed.

(** [buildPosMap] throws exactly when a morph names a property of
    [Object.prototype]; otherwise its map lists the tags of every morph. *)
Lemma buildPosMap_inv morphs :
  match buildPosMap morphs with
  | Some posMap =>
      Forall (λ e, inherited (entry_morph e) = false) morphs ∧ PosMapOf morphs posMap
  | None => ∃ e, e ∈ morphs ∧ inherited (entry_morph e) = true
  end.
Proof.
  unfold buildPosMap.
  apply (for_each_match
    (λ seen posMap, Forall (λ e, inherited (entry_morph e) = false) seen
                    ∧ PosMapOf seen posMap)
    (λ e, inherited (entry_morph e) = true)).
  - split; [constructor|]. intros m. rewrite lookup_empty. by intros ?%elem_of_nil.
  - intros seen e posMap _ [Hown Hinv]. rewrite buildPosMap_step.
    destruct (inherited (entry_morph e)) eqn:Hinh.
    + case_bool_decide as Hnone; simpl; [done|].
      exfalso. pose proof (Hinv (entry_morph e)) as He.
      destruct (posMap !! entry_morph e) as [tags|] eqn:Hem; [|done].
      destruct He as (_ & Hne & Htags).
      destruct tags as [|p tags]; [done|].
      assert (Hin : mkDictEntry (entry_morph e) p ∈ seen) by (apply Htags, list_elem_of_here).
      rewrite list.Forall_forall in Hown. specialize (Hown _ Hin). simpl in Hown. congruence.
    + rewrite andb_false_r. split; [|by apply PosMapOf_step].
      apply Forall_app. split; [done|]. by constructor.
Qed.

Lemma buildPosMap_total morphs :
  Forall (λ e, inherited (entry_morph e) = false) morphs → is_Some (buildPosMap morphs).
Proof.
  intros Hown. pose proof (buildPosMap_inv morphs) as Hinv.
  destruct (buildPosMap morphs) as [posMap|]; [by eexists|].
  destruct Hinv as (e & He & Hinh). rewrite list.Forall_forall in Hown.
  rewrite (Hown e He) in Hinh. done.
Qed.

(** Every morph of a dictionary has a non-empty tag list in its PosMap. *)
Lemma buildPosMap_tags morphs posMap m :
  buildPosMap morphs = Some posMap →
  m ∈ entry_morph <$> morphs →
  ∃ tags, posMap !! m = Some tags ∧ tags ≠ [] ∧ ∀ p, p ∈ tags → mkDictEntry m p ∈ morphs.
Proof.
  intros Hb Hm. pose proof (buildPosMap_inv morphs) as Hinv. rewrite Hb in Hinv.
  destruct Hinv as [_ Hinv]. specialize (Hinv m).
  destruct (posMap !! m) as [tags|]; [|done].
  destruct Hinv as (_ & Hne & Htags). exists tags. split; [done|]. split; [done|].
  intros p. apply Htags.
Qed.

(** A model built from one dictionary covers itself. *)
Lemma dictionary_covers text morphs posMap :
  buildPosMap morphs = Some posMap →
  covers text (buildMorphTrie morphs) posMap.
Proof.
  intros Hb idx [m e] Hin. simpl.
  apply findMorphsFromTrie_elem in Hin as (_ & _ & Hmem).
  apply buildMorphTrie_mem in Hmem as [_ Hm].
  destruct (buildPosMap_tags morphs posMap m Hb Hm) as (tags & ? & ? & _). by exists tags.
Qed.

(** It does so with tags that name no property of [Object.prototype] when
    the dictionary has no such tag. *)
Lemma dictionary_covers_own text morphs posMap :
  buildPosMap morphs = Some posMap →
  Forall (λ e, inherited (entry_pos e) = false) morphs →
  covers_own text (buildMorphTrie morphs) posMap.
Proof.
  intros Hb Hown idx [m e] Hin. simpl.
  apply findMorphsFromTrie_elem in Hin as (_ & _ & Hmem).
  apply buildMorphTrie_mem in Hmem as [_ Hm].
  destruct (buildPosMap_tags morphs posMap m Hb Hm) as (tags & Htags & Hne & Hall).
  destruct tags as [|p tags]; [done|]. exists (p :: tags), p.
  split; [done|]. split; [apply list_elem_of_here|].
  rewrite list.Forall_forall in Hown.
  apply (Hown (mkDictEntry m p)). apply Hall, list_elem_of_here.
Qed.

(** The forward pass never throws on a model built from one dictionary. *)
Lemma dictionary_safe text morphs posMap idx :
  buildPosMap morphs = Some posMap →
  ¬ throwsAt text (buildMorphTrie morphs) posMap idx.
Proof.
  intros Hb (c & [m e] & _ & _ & Hin & Hnone & _). simpl in Hnone.
  destruct (dictionary_covers text morphs posMap Hb idx _ Hin) as (tags & Htags & _).
  simpl in Htags. congruence.
Qed.

(** A dictionary without whitespace in its morphs gives a trie without. *)
Lemma dictionary_no_ws morphs :
  Forall (λ e, Forall (λ c, is_ws c = false) (entry_morph e)) morphs →
  no_ws_morphs (buildMorphTrie morphs).
Proof.
  intros Hall w Hmem. apply buildMorphTrie_mem in Hmem as [_ Hm].
  apply list_elem_of_fmap in Hm as (e & -> & He).
  rewrite list.Forall_forall in Hall. by apply Hall.
Qed.

(** ** The entry point *)

Section Segment.

Variable Math_log : float → float.
Variables (text : jsstring) (trie : Trie) (posMap : PosMap) (tm : TransitionMap).

Lemma segment_unfold rm vt :
  forward Math_log text trie posMap tm findMorphsFromTrie = Some vt →
  segment Math_log text trie posMap tm rm =
    Some (recombineTokens (backtrace (pickBest (lastRow text vt))) rm).
Proof. intros H. unfold segment, viterbiSegment. by rewrite H. Qed.

Lemma segment_forward rm words :
  segment Math_log text trie posMap tm rm = Some words →
  ∃ vt, forward Math_log text trie posMap tm findMorphsFromTrie = Some vt
      ∧ words = recombineTokens (backtrace (pickBest (lastRow text vt))) rm.
Proof.
  unfold segment, viterbiSegment.
  destruct (forward _ _ _ _ _ _) as [vt|]; simpl; [|done].
  intros [= <-]. by exists vt.
Qed.

Lemma lastRow_cell vt k s :
  row_get (lastRow text vt) k = Some s → cell vt (length text) k = Some s.
Proof.
  unfold lastRow, cell. destruct (vt !! length text) as [row|]; simpl; done.
Qed.

Lemma lastRow_nonempty vt k :
  is_Some (cell vt (length text) k) → lastRow text vt ≠ [].
Proof.
  unfold lastRow, cell. intros [s Hs].
  destruct (vt !! length text) as [row|]; simpl in *; [|done].
  by destruct row.
Qed.

(** With a populated last row the backtrace starts from the end of a path
    over the whole text. *)
Lemma lastRow_best vt :
  TableOk text trie posMap tm vt → lastRow text vt ≠ [] →
  ∃ k s, pickBest (lastRow text vt) = Some s
       ∧ Path text trie posMap tm (length text) k s.
Proof.
  intros [_ Hpaths] Hne.
  destruct (pickBest_Some _ Hne) as (k & s & Hbest & Hget).
  exists k, s. split; [done|]. by apply Hpaths, lastRow_cell.
Qed.

Lemma proposeTag_Reachable prevPos prevState m e idx posTag vt vt' :
  Reachable text vt →
  proposeTag Math_log tm prevPos prevState m e idx posTag vt = Some vt' →
  Reachable text vt'.
Proof.
  intros Hr. unfold proposeTag. destruct (transitionProb tm prevPos posTag).
  - intros Hu. by eapply reach_update.
  - destruct (vt !! e); simpl; [by intros [= <-]|done].
  - done.
Qed.

Lemma stepState_Reachable findMorphs idx prevPos vt vt' :
  Reachable text vt →
  stepState Math_log text trie posMap tm findMorphs idx prevPos vt = Some vt' →
  Reachable text vt'.
Proof.
  intros Hr. unfold stepState.
  destruct (cell vt idx prevPos) as [prevState|]; simpl; [|done].
  destruct (text !! idx) as [c|]; simpl; [|done].
  destruct (is_ws c).
  - intros Hu. by eapply reach_update.
  - destruct (for_each (findMorphs trie text idx) _ vt) as [vt1|] eqn:Hloop; simpl; [|done].
    assert (Hr1 : Reachable text vt1).
    { revert Hloop. apply for_each_preserves; [|done].
      intros f s s' Hs. destruct (posTags posMap (found_morph f)) as [tags|]; simpl; [|done].
      apply for_each_preserves; [|done].
      intros posTag s0 s0' Hs0. by apply proposeTag_Reachable. }
    destruct (negb (negb _)); [|by intros [= <-]].
    intros Hu. by eapply reach_update.
Qed.

Lemma forward_Reachable findMorphs vt :
  forward Math_log text trie posMap tm findMorphs = Some vt → Reachable text vt.
Proof.
  unfold forward. apply for_each_preserves; [|constructor].
  intros idx s s' Hs. apply for_each_preserves; [|done].
  intros prevPos s0 s0' Hs0. by apply stepState_Reachable.
Qed.

End Segment.

(** Whenever the last row is populated, the words spell the text. *)
Lemma segment_spells (Math_log : float → float) text trie posMap tm rm vt :
  forward Math_log text trie posMap tm findMorphsFromTrie = Some vt →
  lastRow text vt ≠ [] →
  ∃ words, segment Math_log text trie posMap tm rm = Some words
         ∧ surface (concat (tokens <$> words)) = text.
Proof.
  intros Hf Hrow. eexists. split; [by apply segment_unfold|].
  rewrite recombineTokens_concat.
  destruct (lastRow_best text trie posMap tm vt) as (k & s & -> & Hpath);
    [by eapply forward_TableOk|done|].
  change (backtrace (Some s)) with (reverse (collectTokens s)).
  rewrite (Path_surface _ _ _ _ _ _ _ Hpath). by rewrite take_ge.
Qed.

(** The tokens of a table of paths that the backtrace collects are those
    of a path over the whole text, or there are none. *)
Lemma backtrace_path text trie posMap tm vt :
  TableOk text trie posMap tm vt →
  backtrace (pickBest (lastRow text vt)) = []
  ∨ ∃ k s, cell vt (length text) k = Some s
         ∧ Path text trie posMap tm (length text) k s
         ∧ backtrace (pickBest (lastRow text vt)) = reverse (collectTokens s).
Proof.
  intros Hok.
  destruct (decide (lastRow text vt = [])) as [->|Hne]; [by left|].
  destruct (pickBest_Some _ Hne) as (k & s & -> & Hget).
  apply lastRow_cell in Hget. right. exists k, s. split; [done|]. split; [|done].
  by apply Hok.
Qed.

(** The tokens the entry point returns are those of a path over the whole
    text, or there are none. *)
Lemma segment_tokens (Math_log : float → float) text trie posMap tm rm words :
  segment Math_log text trie posMap tm rm = Some words →
  concat (tokens <$> words) = []
  ∨ ∃ k s, Path text trie posMap tm (length text) k s
         ∧ concat (tokens <$> words) = reverse (collectTokens s).
Proof.
  intros (vt & Hf & ->)%segment_forward. rewrite recombineTokens_concat.
  destruct (backtrace_path text trie posMap tm vt) as [->|(k & s & _ & Hpath & ->)];
    [by eapply forward_TableOk|by left|].
  right. by exists k, s.
Qed.

(** ** The transition policy along a path *)





(** Every text token of a path carries a number of the policy. *)
Lemma Path_text_tokens text trie posMap tm p k s :
  Path text trie posMap tm p k s →
  ∀ t, t ∈ collectTokens s → type t = KText →
    ∃ prevPos, transitionProb tm prevPos (pos t) = TPNumber (transProb t).
Proof.
  induction 1 as [|idx prevPos prev e nextPos tok sc Hpath IH Hstep]; intros t Ht Hty.
  - by apply elem_of_nil in Ht.
  - rewrite collectTokens_step in Ht. apply elem_of_cons in Ht as [->|Ht]; [|by apply IH].
    destruct Hstep; simpl in *; try done. by exists prevPos.
Qed.

(** ** The claims on the entry point *)

(** C1, as the code has it: when the row at position N = [text.length] is
    empty at the end of the forward pass, the entry point does not throw; it
    returns the empty word sequence. *)
Theorem viterbiSegment_dead_end (Math_log : float → float) (text : jsstring)
    (trie : Trie) (posMap : PosMap) (tm : TransitionMap)
    (findMorphs : Trie → jsstring → nat → list Found) (rm : RecombinationMap)
    (vt : Table) :
  forward Math_log text trie posMap tm findMorphs = Some vt →
  lastRow text vt = [] →
  viterbiSegment Math_log text trie posMap tm findMorphs rm = Some [].
Proof.
  intros Hf Hrow. unfold viterbiSegment. rewrite Hf. simpl. by rewrite Hrow.
Qed.


(** C3, as the code has it: when the forward pass populates the last row,
    the entry point returns words whose tokens, in output order, spell
    exactly the input. *)
Theorem segment_coverage (Math_log : float → float) (text : jsstring)
    (trie : Trie) (posMap : PosMap) (tm : TransitionMap) (rm : RecombinationMap)
    (vt : Table) :
  forward Math_log text trie posMap tm findMorphsFromTrie = Some vt →
  lastRow text vt ≠ [] →
  ∃ words, segment Math_log text trie posMap tm rm = Some words
         ∧ surface (concat (tokens <$> words)) = text.
Proof.
  intros Hf Hrow. by apply segment_spells with (vt := vt).
Qed.

(** C5, as the code has it: when no morph of the trie holds a whitespace
    character and the forward pass populates the last row, every maximal
    whitespace run of the input is the span of exactly one whitespace token of
    the output, at that place; whitespace tokens hold only whitespace and
    the other tokens hold none. *)
Theorem segment_whitespace_atomic (Math_log : float → float) (text : jsstring)
    (trie : Trie) (posMap : PosMap) (tm : TransitionMap) (rm : RecombinationMap)
    (vt : Table) :
  no_ws_morphs trie →
  forward Math_log text trie posMap tm findMorphsFromTrie = Some vt →
  lastRow text vt ≠ [] →
  ∃ words, segment Math_log text trie posMap tm rm = Some words
    ∧ (∀ pre run post, maximal_ws_run text pre run post →
         ∃ ts1 t ts2, concat (tokens <$> words) = ts1 ++ t :: ts2
                    ∧ type t = KWhitespace ∧ morph t = run
                    ∧ surface ts1 = pre ∧ surface ts2 = post)
    ∧ (∀ t, t ∈ concat (tokens <$> words) →
         (type t = KWhitespace → Forall (λ c, is_ws c = true) (morph t))
         ∧ (type t ≠ KWhitespace → Forall (λ c, is_ws c = false) (morph t))).
Proof.
  intros Hno Hf Hrow. eexists. split; [by apply segment_unfold|].
  rewrite recombineTokens_concat.
  destruct (lastRow_best text trie posMap tm vt) as (k & s & -> & Hpath);
    [by eapply forward_TableOk|done|].
  change (backtrace (Some s)) with (reverse (collectTokens s)).
  destruct (Path_ws_seg _ _ _ _ _ _ _ Hno Hpath) as [Hseg _].
  pose proof (Path_surface _ _ _ _ _ _ _ Hpath) as Hsurf.
  rewrite take_ge in Hsurf by done.
  split.
  - intros pre run post Hrun. apply ws_seg_run; [done|]. by rewrite Hsurf.
  - intros t Ht. apply ws_seg_Forall in Hseg.
    rewrite list.Forall_forall in Hseg. by destruct (Hseg t Ht) as (_ & ? & ?).
Qed.

(** C6 fails on the code.  The dictionary {(a, constructor)} gives a trie
    and a PosMap in which the only morph the trie emits has a PoS tag; on
    the text "a" the forward pass returns a table whose row at position
    N = 1 is empty, and the entry point returns no word: the proposal of
    "a" under the tag "constructor" is made and never stored, and the skip
    rule does not fire because the trie matched. *)
Theorem forward_progress_inherited_tag (Math_log : float → float) :
  buildPosMap ctor_tag_dict = Some ctor_tag_posMap
  ∧ covers (js "a") (buildMorphTrie ctor_tag_dict) ctor_tag_posMap
  ∧ forward Math_log (js "a") (buildMorphTrie ctor_tag_dict) ctor_tag_posMap ∅
      findMorphsFromTrie
    = Some [[([], mkState 0%float None None)]; []]
  ∧ lastRow (js "a") [[([], mkState 0%float None None)]; []] = []
  ∧ segment Math_log (js "a") (buildMorphTrie ctor_tag_dict) ctor_tag_posMap ∅ ∅ = Some [].
Proof.
  assert (Hb : buildPosMap ctor_tag_dict = Some ctor_tag_posMap) by (vm_compute; reflexivity).
  split; [done|]. split; [by apply dictionary_covers|].
  repeat split; vm_compute; reflexivity.
Qed.

(** C7: a proposal changes nothing but its target cell, and that cell only
    if it holds a strictly smaller score (on a tie the stored entry stays)
    or if it is free, and then unless its key names a property of
    [Object.prototype]; every table the forward pass goes through has at
    most one entry per PoS tag in each row, and the table it returns is
    one of them. *)
Theorem updateViterbiTable_keeps_best :
  (∀ vt nextIdx nextPos prevState tok addScore lastPos prevIdx vt',
     updateViterbiTable vt nextIdx nextPos prevState tok addScore lastPos prevIdx = Some vt' →
     (∀ i k, (i, k) ≠ (nextIdx, nextPos) → cell vt' i k = cell vt i k)
     ∧ cell vt' nextIdx nextPos =
         match cell vt nextIdx nextPos with
         | None =>
             if inherited nextPos then None
             else Some (mkState (score prevState + addScore) (Some prevState) (Some tok))
         | Some old =>
             if (score old <? score prevState + addScore)%float
             then Some (mkState (score prevState + addScore) (Some prevState) (Some tok))
             else Some old
         end
     ∧ (vt' ≠ vt →
          (cell vt nextIdx nextPos = None ∧ inherited nextPos = false)
          ∨ ∃ old, cell vt nextIdx nextPos = Some old
                 ∧ (score old <? score prevState + addScore)%float = true))
  ∧ (∀ text vt, Reachable text vt → rows_functional vt)
  ∧ (∀ Math_log text trie posMap tm findMorphs vt,
       forward Math_log text trie posMap tm findMorphs = Some vt → Reachable text vt).
Proof.
  split; [|split].
  - intros vt nextIdx nextPos prevState tok addScore lastPos prevIdx vt' Hu.
    destruct (updateViterbiTable_cell _ _ _ _ _ _ _ _ _ Hu) as (_ & _ & H1 & H2 & H3).
    done.
  - apply Reachable_functional.
  - intros. by eapply forward_Reachable.
Qed.

(** C10: every word the entry point returns holds one token, or two text
    tokens whose tags are a key of the rule set and one of its listed
    successors. *)
Theorem segment_word_sizes (Math_log : float → float) (text : jsstring)
    (trie : Trie) (posMap : PosMap) (tm : TransitionMap) (rm : RecombinationMap)
    (words : list Word) :
  segment Math_log text trie posMap tm rm = Some words →
  ∀ w, w ∈ words →
    (∃ t, tokens w = [t])
    ∨ (∃ t1 t2 successors, tokens w = [t1; t2]
         ∧ type t1 = KText ∧ type t2 = KText
         ∧ rm !! pos t1 = Some successors ∧ pos t2 ∈ successors).
Proof.
  unfold segment, viterbiSegment. intros Hs w Hw.
  destruct (forward _ _ _ _ _ _) as [vt|]; simpl in Hs; [|done].
  inversion Hs; subst words.
  pose proof (recombineTokens_words_ok (backtrace (pickBest (lastRow text vt))) rm) as Hok.
  rewrite list.Forall_forall in Hok. by apply Hok.
Qed.

(** C4: Example 1.  The dictionary {(今日, noun), (は, particle)}, whose
    PosMap is [ex1_posMap], the transition noun -> particle = 0.5 and no
    recombination rule segment "今日は" into two one-token words,
    今日/noun/text then は/particle/text, whatever [Math.log] returns. *)
Theorem segment_example_1 (Math_log : float → float) :
  buildPosMap ex1_dict = Some ex1_posMap
  ∧ segment Math_log ex1_text (buildMorphTrie ex1_dict) ex1_posMap ex1_transitions ∅
    = Some [mkWord [ex1_token1]; mkWord [ex1_token2]].
Proof. split; vm_compute; reflexivity. Qed.

(** ** Further properties of the engine and of the dictionary builders *)

(** The entry point returns when the PosMap lists every morph of the trie
    that names a property of [Object.prototype]: every access to the table
    is in range, and the tags of every morph the trie emits can be read. *)
Theorem segment_returns (Math_log : float → float) (text : jsstring)
    (trie : Trie) (posMap : PosMap) (tm : TransitionMap) (rm : RecombinationMap) :
  (∀ m, trie_mem trie m = true → inherited m = true → is_Some (posMap !! m)) →
  is_Some (segment Math_log text trie posMap tm rm).
Proof.
  intros Hlisted.
  destruct (proj2 (forward_total Math_log text trie posMap tm)) as [vt Hf].
  - intros idx k s _ (c & [m e] & _ & _ & Hin & Hnone & Hinh). simpl in *.
    apply findMorphsFromTrie_elem in Hin as (_ & _ & Hmem).
    destruct (Hlisted m Hmem Hinh) as [tags Htags]. congruence.
  - rewrite (segment_unfold Math_log text trie posMap tm rm vt Hf). by eexists.
Qed.

Lemma dictionary_spells (Math_log : float → float) (text : jsstring)
    (morphs : list DictEntry) (tm : TransitionMap) (rm : RecombinationMap) :
  Forall (λ e, inherited (entry_morph e) = false ∧ inherited (entry_pos e) = false) morphs →
  ∃ posMap words,
    buildPosMap morphs = Some posMap
    ∧ segment Math_log text (buildMorphTrie morphs) posMap tm rm = Some words
    ∧ surface (concat (tokens <$> words)) = text.
Proof.
  intros Hown.
  destruct (buildPosMap_total morphs) as [posMap Hb].
  { eapply list.Forall_impl; [exact Hown|]. by intros e [? _]. }
  destruct (proj2 (forward_total Math_log text (buildMorphTrie morphs) posMap tm)) as [vt Hf].
  { intros idx k s _. by apply dictionary_safe. }
  destruct (forward_reaches_end Math_log text (buildMorphTrie morphs) posMap tm vt) as [k Hk].
  { apply dictionary_covers_own; [done|].
    eapply list.Forall_impl; [exact Hown|]. by intros e [_ ?]. }
  { done. }
  destruct (segment_spells Math_log text (buildMorphTrie morphs) posMap tm rm vt Hf)
    as (words & Hs & Hsurf); [by eapply lastRow_nonempty|].
  by exists posMap, words.
Qed.

(** On a trie and a PosMap built from one dictionary in which no morph and
    no tag names a property of [Object.prototype], neither the builders nor
    the engine throw, the engine never dead-ends, and the tokens it returns
    spell the input. *)
Theorem segment_dictionary_coverage (Math_log : float → float) (text : jsstring)
    (morphs : list DictEntry) (tm : TransitionMap) (rm : RecombinationMap) :
  Forall (λ e, inherited (entry_morph e) = false ∧ inherited (entry_pos e) = false) morphs →
  ∃ posMap words,
    buildPosMap morphs = Some posMap
    ∧ segment Math_log text (buildMorphTrie morphs) posMap tm rm = Some words
    ∧ surface (concat (tokens <$> words)) = text.
Proof. apply dictionary_spells. Qed.

(** Forward progress, as far as the code has it: when every morph the trie
    emits has a PoS tag in the PosMap that names no property of
    [Object.prototype], the forward pass returns a table whose row at
    position N = [text.length] holds a state. *)
Theorem forward_progress (Math_log : float → float) (text : jsstring)
    (trie : Trie) (posMap : PosMap) (tm : TransitionMap) :
  covers_own text trie posMap →
  ∃ vt, forward Math_log text trie posMap tm findMorphsFromTrie = Some vt
      ∧ lastRow text vt ≠ [].
Proof.
  intros Hcov.
  destruct (proj2 (forward_total Math_log text trie posMap tm)) as [vt Hf].
  { intros idx k s _ (c & f & _ & _ & Hin & Hnone & _).
    destruct (Hcov idx f Hin) as (tags & posTag & Htags & _). congruence. }
  exists vt. split; [done|].
  destruct (forward_reaches_end Math_log text trie posMap tm vt Hcov Hf) as [k Hk].
  by eapply lastRow_nonempty.
Qed.

(** Example 2: with the empty dictionary, "X" is one word holding the
    skipped token X with the empty tag. *)
Lemma segment_example_2 (Math_log : float → float) :
  buildPosMap [] = Some ∅
  ∧ segment Math_log (js "X") (buildMorphTrie []) ∅ ∅ ∅
    = Some [mkWord [mkToken (js "X") [] KSkipped 1e-8%float]].
Proof. split; vm_compute; reflexivity. Qed.

(** The empty text gives the empty word sequence, for every model. *)
Theorem segment_empty_text (Math_log : float → float) (trie : Trie)
    (posMap : PosMap) (tm : TransitionMap) (rm : RecombinationMap) :
  segment Math_log [] trie posMap tm rm = Some [].
Proof. reflexivity. Qed.

(** The morphs of the trie built from a dictionary are exactly the
    non-empty morphs of its entries. *)
Theorem buildMorphTrie_morphs (morphs : list DictEntry) (w : jsstring) :
  trie_mem (buildMorphTrie morphs) w = true ↔ w ≠ [] ∧ w ∈ entry_morph <$> morphs.
Proof. apply buildMorphTrie_mem. Qed.

Lemma insertMorph_present chars :
  ∀ node, trie_mem node chars = true → insertMorph chars node = node.
Proof.
  induction chars as [|ch rest IH]; intros node; [done|].
  simpl. destruct (node !! ch) as [n|] eqn:Hn; [|done]. simpl.
  destruct n as [flag kids]. simpl.
  case_bool_decide as Hrest; simpl.
  - subst rest. intros ->. simpl. by apply insert_id.
  - intros Hmem. rewrite (IH kids Hmem). by apply insert_id.
Qed.

(** Inserting a morph that is already in the trie changes nothing. *)
Theorem insertMorph_idempotent (chars : jsstring) (node : Trie) :
  trie_mem node chars = true → insertMorph chars node = node.
Proof. apply insertMorph_present. Qed.

(** Inserting a morph twice is inserting it once. *)
Lemma insertMorph_twice (chars : jsstring) (node : Trie) :
  insertMorph chars (insertMorph chars node) = insertMorph chars node.
Proof.
  destruct (decide (chars = [])) as [->|Hne]; [done|].
  apply insertMorph_present. apply insertMorph_mem; [done|]. by left.
Qed.

(** [buildPosMap] throws exactly when some morph of the dictionary names a
    property of [Object.prototype]; otherwise the PosMap lists, for each
    morph, exactly the tags of its entries, each once. *)
Theorem buildPosMap_spec (morphs : list DictEntry) :
  match buildPosMap morphs with
  | Some posMap =>
      Forall (λ e, inherited (entry_morph e) = false) morphs
      ∧ ∀ m, match posMap !! m with
             | None => m ∉ entry_morph <$> morphs
             | Some tags =>
                 NoDup tags ∧ tags ≠ [] ∧ ∀ p, p ∈ tags ↔ mkDictEntry m p ∈ morphs
             end
  | None => ∃ e, e ∈ morphs ∧ inherited (entry_morph e) = true
  end.
Proof. apply buildPosMap_inv. Qed.

(** The segmentation the README shows,
    [今日][は][雨][が][降っている][から]、[出かけたくない]。, whatever
    [Math.log] returns: no two paths meet in a cell on this sentence. *)
Lemma segment_readme_example (Math_log : float → float) :
  ∃ posMap, buildPosMap readme_dict = Some posMap
    ∧ segment Math_log readme_text (buildMorphTrie readme_dict) posMap
        readme_transitions readme_rules
      = Some readme_words.
Proof. eexists. split; [vm_compute; reflexivity|]. vm_compute. reflexivity. Qed.

(** ** Concrete instances *)

(** With the reference logarithm the path x, a, b (two steps of probability
    0.75) replaces the path x, ab (the unlisted transition p -> r, 1e-8) in
    the cell of position 3 and tag "r", and is the one returned. *)
Lemma better_path_replaces :
  ∃ posMap, buildPosMap meet_dict = Some posMap
    ∧ segment Math_log_ref (js "xab") (buildMorphTrie meet_dict) posMap meet_transitions ∅
      = Some [mkWord [mkToken (js "x") (js "p") KText 1.0%float];
              mkWord [mkToken (js "a") (js "q") KText 0.75%float];
              mkWord [mkToken (js "b") (js "r") KText 0.75%float]].
Proof. eexists. split; [vm_compute; reflexivity|]. vm_compute. reflexivity. Qed.

(** A morph that names a property of [Object.prototype]: [buildPosMap]
    throws on the dictionary {(constructor, noun)}, and with its trie and a
    PosMap that does not list the morph the entry point throws on the text
    "constructor". *)
Lemma inherited_morph_throws (Math_log : float → float) :
  buildPosMap ctor_morph_dict = None
  ∧ segment Math_log (js "constructor") (buildMorphTrie ctor_morph_dict) ∅ ∅ ∅ = None.
Proof. split; vm_compute; reflexivity. Qed.

(** C1 at a concrete input: on [ce1_trie] with the empty PosMap the text
    "a" dead-ends, the last row is empty and the entry point returns the
    empty sequence. *)
Lemma viterbiSegment_dead_end_witness :
  forward Math_log_ref ce1_text ce1_trie ce1_posMap ∅ findMorphsFromTrie
    = Some [[([], mkState 0%float None None)]; []]
  ∧ lastRow ce1_text [[([], mkState 0%float None None)]; []] = []
  ∧ viterbiSegment Math_log_ref ce1_text ce1_trie ce1_posMap ∅ findMorphsFromTrie ∅ = Some [].
Proof.
  split; [vm_compute; reflexivity|]. split; [vm_compute; reflexivity|].
  apply (viterbiSegment_dead_end Math_log_ref ce1_text ce1_trie ce1_posMap ∅
           findMorphsFromTrie ∅ [[([], mkState 0%float None None)]; []]);
    vm_compute; reflexivity.
Defined.

(** The dead end of [ce1_trie] does not depend on [Math.log]. *)
Lemma dead_end_any_log (Math_log : float → float) :
  forward Math_log ce1_text ce1_trie ce1_posMap ∅ findMorphsFromTrie
    = Some [[([], mkState 0%float None None)]; []]
  ∧ lastRow ce1_text [[([], mkState 0%float None None)]; []] = []
  ∧ segment Math_log ce1_text ce1_trie ce1_posMap ∅ ∅ = Some [].
Proof. repeat split; vm_compute; reflexivity. Qed.

(** C1 as stated fails: with no state at position N the entry point returns
    a result, the empty word sequence, and raises nothing. *)
Lemma segment_dead_end_counterexample :
  forward Math_log_ref ce1_text ce1_trie ce1_posMap ∅ findMorphsFromTrie
    = Some [[([], mkState 0%float None None)]; []]
  ∧ lastRow ce1_text [[([], mkState 0%float None None)]; []] = []
  ∧ segment Math_log_ref ce1_text ce1_trie ce1_posMap ∅ ∅ = Some [].
Proof. exact (dead_end_any_log Math_log_ref). Qed.

(** C3 as stated fails: on the same input the entry point returns a word
    sequence, the empty one, whose text is not the input "a". *)
Lemma segment_coverage_counterexample :
  segment Math_log_ref ce1_text ce1_trie ce1_posMap ∅ ∅ = Some []
  ∧ surface (concat (tokens <$> @nil Word)) ≠ ce1_text.
Proof.
  split; [apply (dead_end_any_log Math_log_ref)|]. vm_compute. discriminate.
Qed.

(** Whitespace passes the previous tag through: in "今日  は" the particle
    after the two spaces is still scored against the noun before them. *)
Lemma whitespace_keeps_tag (Math_log : float → float) :
  segment Math_log ex5_text (buildMorphTrie ex1_dict) ex1_posMap ex1_transitions ∅
  = Some ex5_words.
Proof. vm_compute. reflexivity. Qed.



(** C3 at a concrete input: Example 1 populates its last row and its words
    spell "今日は". *)
Lemma segment_coverage_witness :
  ∃ vt, forward Math_log_ref ex1_text (buildMorphTrie ex1_dict) ex1_posMap
          ex1_transitions findMorphsFromTrie = Some vt
      ∧ lastRow ex1_text vt ≠ []
      ∧ ∃ words, segment Math_log_ref ex1_text (buildMorphTrie ex1_dict)
                   ex1_posMap ex1_transitions ∅ = Some words
               ∧ surface (concat (tokens <$> words)) = ex1_text.
Proof.
  eexists. split; [vm_compute; reflexivity|]. split; [vm_compute; discriminate|].
  eapply (segment_coverage Math_log_ref ex1_text (buildMorphTrie ex1_dict)
            ex1_posMap ex1_transitions ∅);
    [vm_compute; reflexivity|vm_compute; discriminate].
Defined.

Lemma ex1_dict_no_ws : no_ws_morphs (buildMorphTrie ex1_dict).
Proof. apply dictionary_no_ws. repeat constructor. Qed.

(** C5 at a concrete input: the dictionary of Example 1 on "今日  は". *)
Lemma segment_whitespace_atomic_witness :
  no_ws_morphs (buildMorphTrie ex1_dict)
  ∧ ∃ vt, forward Math_log_ref ex5_text (buildMorphTrie ex1_dict) ex1_posMap
            ex1_transitions findMorphsFromTrie = Some vt
      ∧ lastRow ex5_text vt ≠ []
      ∧ ∃ words, segment Math_log_ref ex5_text (buildMorphTrie ex1_dict)
                   ex1_posMap ex1_transitions ∅ = Some words
          ∧ (∀ pre run post, maximal_ws_run ex5_text pre run post →
               ∃ ts1 t ts2, concat (tokens <$> words) = ts1 ++ t :: ts2
                          ∧ type t = KWhitespace ∧ morph t = run
                          ∧ surface ts1 = pre ∧ surface ts2 = post)
          ∧ (∀ t, t ∈ concat (tokens <$> words) →
               (type t = KWhitespace → Forall (λ c, is_ws c = true) (morph t))
               ∧ (type t ≠ KWhitespace → Forall (λ c, is_ws c = false) (morph t))).
Proof.
  split; [exact ex1_dict_no_ws|].
  eexists. split; [vm_compute; reflexivity|]. split; [vm_compute; discriminate|].
  eapply (segment_whitespace_atomic Math_log_ref ex5_text (buildMorphTrie ex1_dict)
            ex1_posMap ex1_transitions ∅);
    [exact ex1_dict_no_ws|vm_compute; reflexivity|vm_compute; discriminate].
Defined.

(** The two failures of whitespace atomicity do not depend on [Math.log]. *)
Lemma whitespace_any_log (Math_log : float → float) :
  (∃ posMap, buildPosMap ce5_dict = Some posMap
     ∧ segment Math_log ce5_text (buildMorphTrie ce5_dict) posMap ∅ ∅
       = Some [mkWord [ce5_token]])
  ∧ segment Math_log ce5_text' ce1_trie ce1_posMap ∅ ∅ = Some [].
Proof.
  split; [|vm_compute; reflexivity].
  eexists. split; [vm_compute; reflexivity|]. vm_compute. reflexivity.
Qed.

(** C5 as stated fails twice.  A morph that holds a space swallows the run:
    "a b" comes out as one text token.  And on a dead end the run is in no
    token at all: " a" on the model of [ce1_trie] gives no word. *)
Lemma segment_whitespace_counterexample :
  (maximal_ws_run ce5_text (js "a") (js " ") (js "b")
   ∧ (∃ posMap, buildPosMap ce5_dict = Some posMap
        ∧ segment Math_log_ref ce5_text (buildMorphTrie ce5_dict) posMap ∅ ∅
          = Some [mkWord [ce5_token]])
   ∧ type ce5_token = KText ∧ morph ce5_token = ce5_text)
  ∧ (maximal_ws_run ce5_text' [] (js " ") (js "a")
     ∧ segment Math_log_ref ce5_text' ce1_trie ce1_posMap ∅ ∅ = Some []).
Proof.
  assert (Hrun : ∀ text pre post, text = pre ++ js " " ++ post →
            (∀ c, last pre = Some c → is_ws c = false) →
            (∀ c, head post = Some c → is_ws c = false) →
            maximal_ws_run text pre (js " ") post).
  { intros text pre post -> Hpre Hpost. split; [done|]. split; [done|].
    split; [by repeat constructor|]. done. }
  destruct (whitespace_any_log Math_log_ref) as [H1 H2].
  split; split; try done.
  - apply Hrun; [done|intros c [= <-]; reflexivity..].
  - apply Hrun; [done|intros c [=]|intros c [= <-]; reflexivity].
Qed.

(** C10 at a concrete input: Example 3 through the entry point gives one
    two-token word. *)
Lemma segment_word_sizes_witness :
  segment Math_log_ref ex3_text (buildMorphTrie ex3_dict) ex3_posMap
    ex3_transitions ex3_rules = Some [mkWord ex3_tokens]
  ∧ mkWord ex3_tokens ∈ [mkWord ex3_tokens]
  ∧ ((∃ t, tokens (mkWord ex3_tokens) = [t])
     ∨ (∃ t1 t2 successors, tokens (mkWord ex3_tokens) = [t1; t2]
          ∧ type t1 = KText ∧ type t2 = KText
          ∧ ex3_rules !! pos t1 = Some successors ∧ pos t2 ∈ successors)).
Proof.
  split; [vm_compute; reflexivity|]. split; [apply list_elem_of_here|].
  apply (segment_word_sizes Math_log_ref ex3_text (buildMorphTrie ex3_dict)
           ex3_posMap ex3_transitions ex3_rules [mkWord ex3_tokens]);
    [vm_compute; reflexivity|apply list_elem_of_here].
Defined.

(** The PosMap of Example 3 is the one built from its dictionary. *)
Lemma ex3_posMap_built : buildPosMap ex3_dict = Some ex3_posMap.
Proof. vm_compute. reflexivity. Qed.

(** ** Comparison of scores *)

Lemma SFltb_trans x y z : SFltb x y = true → SFltb y z = true → SFltb x z = true.
Proof.
  unfold SFltb.
  destruct x as [sx|sx| |sx mx ex], y as [sy|sy| |sy my ey], z as [sz|sz| |sz mz ez];
    simpl; try done;
    repeat match goal with s : bool |- _ => destruct s end; simpl; try done.
  all: change (Pos.compare_cont Eq) with Pos.compare.
  all: destruct (Z.compare_spec ex ey), (Z.compare_spec ey ez), (Z.compare_spec ex ez);
    try done; try lia; subst.
  all: destruct (Pos.compare_spec mx my), (Pos.compare_spec my mz), (Pos.compare_spec mx mz);
    simpl; try done; try lia.
Qed.

Lemma SFltb_irrefl x : SFltb x x = false.
Proof.
  unfold SFltb. destruct x as [s|s| |s m e]; simpl; try done; destruct s; try done.
  all: rewrite Z.compare_refl; change (Pos.compare_cont Eq) with Pos.compare;
    rewrite Pos.compare_refl; done.
Qed.

(** [<] on doubles is transitive and irreflexive, [NaN] included. *)
Lemma ltb_trans (x y z : float) :
  (x <? y)%float = true → (y <? z)%float = true → (x <? z)%float = true.
Proof. rewrite !ltb_spec. apply SFltb_trans. Qed.

Lemma ltb_irrefl (x : float) : (x <? x)%float = false.
Proof. rewrite ltb_spec. apply SFltb_irrefl. Qed.

Lemma ltb_asym (x y : float) : (x <? y)%float = true → (y <? x)%float = false.
Proof.
  intros Hxy. destruct (y <? x)%float eqn:Hyx; [|done].
  by rewrite <- (ltb_irrefl x), (ltb_trans x y x Hxy Hyx).
Qed.

(** If [b] beats [a] and [a] is not beaten by [s], then [b] is not beaten
    by [s]. *)
Lemma ltb_keeps (a b s : float) :
  (a <? b)%float = true → (a <? s)%float = false → (b <? s)%float = false.
Proof.
  intros Hab Has. destruct (b <? s)%float eqn:Hbs; [|done].
  by rewrite (ltb_trans a b s Hab Hbs) in Has.
Qed.

(** ** The best end state is not beaten *)

Lemma pickBest_fold_best row keys :
  ∀ best (seen : State → Prop),
    (best = None → ∀ s, ¬ seen s) →
    (∀ b, best = Some b → ∀ s, seen s → (score b <? score s)%float = false) →
    ∀ rb,
      foldl (λ best posTag,
        match row_get row posTag with
        | None => best
        | Some cand =>
            match best with
            | None => Some cand
            | Some b => if (score b <? score cand)%float then Some cand else best
            end
        end) best keys = Some rb →
      ∀ s, seen s ∨ (∃ k, k ∈ keys ∧ row_get row k = Some s) →
        (score rb <? score s)%float = false.
Proof.
  induction keys as [|k keys IH]; intros best seen Hnone Hbest rb Hr s Hs; simpl in Hr.
  - subst best. destruct Hs as [Hs|(k & Hk%elem_of_nil & _)]; [|done]. by eapply Hbest.
  - destruct (row_get row k) as [cand|] eqn:Hcand.
    + eapply (IH _ (λ s, seen s ∨ s = cand)); [| |exact Hr|].
      * destruct best as [b|]; [by destruct (score b <? score cand)%float|done].
      * intros b' Hb' s' [Hs'| ->].
        -- destruct best as [b|].
           ++ destruct (score b <? score cand)%float eqn:Hlt; inversion Hb'; subst b'.
              ** eapply ltb_keeps; [exact Hlt|]. by eapply Hbest.
              ** by eapply Hbest.
           ++ by destruct (Hnone eq_refl s').
        -- destruct best as [b|].
           ++ destruct (score b <? score cand)%float eqn:Hlt; inversion Hb'; subst b'.
              ** apply ltb_irrefl.
              ** done.
           ++ inversion Hb'; subst b'. apply ltb_irrefl.
      * destruct Hs as [Hs|(k' & [->|Hk']%elem_of_cons & Hget)].
        -- by left; left.
        -- left; right. congruence.
        -- right. by exists k'.
    + eapply (IH best seen); [done|done|exact Hr|].
      destruct Hs as [Hs|(k' & [->|Hk']%elem_of_cons & Hget)]; [by left|congruence|].
      right. by exists k'.
Qed.

(** The end state the backtrace starts from is an entry of the last row
    that no entry of the row beats on score; there is none exactly when the
    row is empty. *)
Theorem pickBest_optimal (row : Row) :
  match pickBest row with
  | Some best =>
      (∃ k, row_get row k = Some best)
      ∧ ∀ k s, row_get row k = Some s → (score best <? score s)%float = false
  | None => row = []
  end.
Proof.
  destruct (pickBest row) as [best|] eqn:Hbest.
  - split.
    + destruct row as [|e row]; [done|].
      destruct (pickBest_Some (e :: row)) as (k & s & Hs & Hk); [done|].
      exists k. congruence.
    + intros k s Hk. unfold pickBest in Hbest.
      eapply (pickBest_fold_best row (forin_keys row) None (λ _, False));
        [by intros _ s' Hs'|done|exact Hbest|].
      right. exists k. split; [|done].
      apply forin_keys_elem, row_get_is_Some. by eexists.
  - destruct row as [|e row]; [done|].
    destruct (pickBest_Some (e :: row)) as (k & s & Hs & Hk); [done|]. congruence.
Qed.

(** ** Scores in a cell only improve *)

(** A proposal past the end of the table throws.  Otherwise the target cell
    ends with a state whose score the proposal does not beat and that does
    not fall below the score stored before, or, when the cell was free and
    its key names a property of [Object.prototype], it stays free and the
    table is unchanged; and making the same proposal again changes
    nothing. *)
Theorem updateViterbiTable_improves (vt : Table) (nextIdx : nat) (nextPos : jsstring)
    (prevState : State) (tok : Token) (addScore : float) (lastPos : jsstring)
    (prevIdx : nat) :
  match updateViterbiTable vt nextIdx nextPos prevState tok addScore lastPos prevIdx with
  | None => length vt ≤ nextIdx
  | Some vt' =>
      nextIdx < length vt
      ∧ match cell vt' nextIdx nextPos with
        | Some cur =>
            (score cur <? score prevState + addScore)%float = false
            ∧ ∀ old, cell vt nextIdx nextPos = Some old →
                     (score cur <? score old)%float = false
        | None =>
            cell vt nextIdx nextPos = None ∧ inherited nextPos = true ∧ vt' = vt
        end
      ∧ updateViterbiTable vt' nextIdx nextPos prevState tok addScore lastPos prevIdx
        = Some vt'
  end.
Proof.
  destruct (updateViterbiTable vt nextIdx nextPos prevState tok addScore lastPos prevIdx)
    as [vt'|] eqn:Hu.
  - destruct (updateViterbiTable_cell _ _ _ _ _ _ _ _ _ Hu)
      as (Hlen & Hlt & _ & Htarget & Hchanged).
    split; [done|].
    set (newScore := (score prevState + addScore)%float) in *.
    assert (Hagain : ∀ row, vt' !! nextIdx = Some row →
              match row_read row nextPos with
              | Undefined => true
              | Inherited => false
              | Own old => (score old <? newScore)%float
              end = false →
              updateViterbiTable vt' nextIdx nextPos prevState tok addScore lastPos prevIdx
              = Some vt').
    { intros row Hrow Hno. unfold updateViterbiTable. fold newScore.
      rewrite Hrow. simpl. by rewrite Hno. }
    destruct (lookup_lt_is_Some_2 vt' nextIdx) as [row Hrow]; [lia|].
    pose proof (row_read_cell vt' nextIdx row nextPos Hrow) as Hread.
    destruct (cell vt nextIdx nextPos) as [old|] eqn:Hold.
    + destruct (score old <? newScore)%float eqn:Hlt'; rewrite Htarget in *; simpl.
      * split; [split; [apply ltb_irrefl|]|].
        -- intros old' [= <-]. by apply ltb_asym.
        -- apply (Hagain row Hrow). rewrite Hread. apply ltb_irrefl.
      * split; [split; [done|]|].
        -- intros old' [= <-]. apply ltb_irrefl.
        -- apply (Hagain row Hrow). by rewrite Hread.
    + destruct (inherited nextPos) eqn:Hinh; rewrite Htarget in *; simpl.
      * split; [split; [done|split; [done|]]|].
        -- unfold updateViterbiTable in Hu.
           destruct (vt !! nextIdx) as [r|] eqn:Hr; simpl in Hu; [|done].
           rewrite (row_read_cell vt nextIdx r nextPos Hr), Hold, Hinh in Hu.
           by inversion Hu.
        -- apply (Hagain row Hrow). by rewrite Hread.
      * split; [split; [apply ltb_irrefl|done]|].
        apply (Hagain row Hrow). rewrite Hread. apply ltb_irrefl.
  - unfold updateViterbiTable in Hu.
    destruct (vt !! nextIdx) as [row|] eqn:Hrow; simpl in Hu.
    + by destruct (match row_read row nextPos with Own _ => _ | Inherited => _ | Undefined => _ end).
    + by apply lookup_ge_None.
Qed.

(** ** Building a trie and querying it *)

(** The query of a trie built from a dictionary finds exactly the
    dictionary morphs that start at the position; in particular every
    non-empty morph of the dictionary is found at the head of a text that
    starts with it. *)
Theorem findMorphsFromTrie_buildMorphTrie (morphs : list DictEntry) (text : jsstring)
    (start : nat) :
  (∀ m e, mkFound m e ∈ findMorphsFromTrie (buildMorphTrie morphs) text start ↔
     start < e ≤ length text ∧ m = slice text start e ∧ m ∈ entry_morph <$> morphs)
  ∧ (∀ d rest, d ∈ morphs → entry_morph d ≠ [] →
       mkFound (entry_morph d) (length (entry_morph d))
         ∈ findMorphsFromTrie (buildMorphTrie morphs) (entry_morph d ++ rest) 0).
Proof.
  assert (Hiff : ∀ text start m e,
            mkFound m e ∈ findMorphsFromTrie (buildMorphTrie morphs) text start ↔
            start < e ≤ length text ∧ m = slice text start e ∧ m ∈ entry_morph <$> morphs).
  { intros text' start' m e. rewrite findMorphsFromTrie_elem, buildMorphTrie_mem. split.
    - intros (? & ? & _ & ?). done.
    - intros (Hr & -> & Hin). split; [done|]. split; [done|]. split; [|done].
      intros Hnil. apply (f_equal length) in Hnil.
      rewrite slice_length in Hnil by lia. simpl in Hnil. lia. }
  split; [apply Hiff|].
  intros d rest Hd Hne. apply Hiff.
  assert (0 < length (entry_morph d)) by (destruct (entry_morph d); [done|simpl; lia]).
  split; [rewrite length_app; lia|]. split.
  - rewrite slice_0. by rewrite take_app_length.
  - apply list_elem_of_fmap. by exists d.
Qed.

Lemma insertMorph_cons ch rest node :
  insertMorph (ch :: rest) node =
    <[ch := mkNode (bool_decide (rest = []) || ismorph (default (mkNode false ∅) (node !! ch)))
              (insertMorph rest (children (default (mkNode false ∅) (node !! ch))))]> node.
Proof. simpl. by case_bool_decide. Qed.

Lemma insertMorph_comm a :
  ∀ b node, insertMorph a (insertMorph b node) = insertMorph b (insertMorph a node).
Proof.
  induction a as [|ca ra IH]; intros b node; [done|].
  destruct b as [|cb rb]; [done|].
  rewrite !(insertMorph_cons ca), !(insertMorph_cons cb).
  destruct (decide (ca = cb)) as [->|Hne].
  - rewrite !lookup_insert_eq. simpl. rewrite !insert_insert_eq. f_equal.
    rewrite IH. f_equal.
    by destruct (bool_decide (ra = [])), (bool_decide (rb = [])),
      (ismorph (default (mkNode false ∅) (node !! cb))).
  - rewrite !lookup_insert_ne by done. by apply insert_insert_ne.
Qed.

(** The trie does not depend on the order of the dictionary entries. *)
Theorem buildMorphTrie_permutation (morphs1 morphs2 : list DictEntry) :
  morphs1 ≡ₚ morphs2 → buildMorphTrie morphs1 = buildMorphTrie morphs2.
Proof.
  unfold buildMorphTrie. intros Hp. generalize (∅ : Trie).
  induction Hp as [|x l1 l2 _ IH|x y l|l1 l2 l3 _ IH1 _ IH2]; intros root; simpl.
  - done.
  - apply IH.
  - by rewrite insertMorph_comm.
  - by rewrite IH1.
Qed.

(** ** The recombiner without rules *)

Lemma mergedAt_empty toks i : mergedAt toks ∅ i = false.
Proof.
  unfold mergedAt. destruct (toks !! i); [|done].
  rewrite lookup_empty. by destruct (nonempty _).
Qed.

Lemma recombineTokens_empty (toks : list Token) :
  recombineTokens toks ∅ = (λ t, mkWord [t]) <$> toks.
Proof.
  unfold recombineTokens.
  destruct (recombineLoop_inv
              (λ i r, i ≤ length toks ∧ r = (λ t, mkWord [t]) <$> take i toks)
              toks ∅) with (fuel := length toks) (i := 0) (r := @nil Word)
    as (i' & Hge & Hle & Heq).
  - intros i r Hlt [_ ->].
    destruct (lookup_lt_is_Some_2 toks i Hlt) as [cur Hc].
    unfold recombineStep. rewrite Hc, mergedAt_empty. simpl. split; [lia|].
    replace (i + 1) with (S i) by lia.
    by rewrite (take_S_r toks i cur Hc), fmap_app.
  - lia.
  - split; [lia|done].
  - rewrite Heq. by rewrite take_ge.
Qed.

(** With the default rule set [{}] every token is a word of its own. *)
Theorem recombineTokens_no_rules (toks : list Token) :
  recombineTokens toks ∅ = (λ t, mkWord [t]) <$> toks
  ∧ length (recombineTokens toks ∅) = length toks.
Proof.
  rewrite recombineTokens_empty. split; [done|]. by rewrite length_fmap.
Qed.

(** ** What the tokens of the output look like *)

Section Shapes.

Variables (text : jsstring) (trie : Trie) (posMap : PosMap) (tm : TransitionMap).

Lemma TokenStep_shape idx prevPos e nextPos tok :
  TokenStep text trie posMap tm idx prevPos e nextPos tok →
  token_shape trie posMap tm tok.
Proof.
  intros Hstep. pose proof (TokenStep_range _ _ _ _ _ _ _ _ _ Hstep) as [Hr Hm].
  assert (Hne : morph tok ≠ []).
  { intros Hnil. rewrite Hm in Hnil. apply (f_equal length) in Hnil.
    rewrite slice_length in Hnil by lia. simpl in Hnil. lia. }
  unfold token_shape.
  destruct Hstep as [c Hc Hws | c m endIdx tags posTag p Hc Hws Hin Htags Htag Hown Hp | c Hc Hws Hnil];
    simpl in *.
  - split; [done|]. split; [done|]. split; [done|].
    pose proof (lookup_lt_Some _ _ _ Hc).
    destruct (wsRunEnd_spec text (drop idx text) idx eq_refl) as (_ & Hall & _); [lia|].
    by apply Forall_slice.
  - apply findMorphsFromTrie_elem in Hin as (_ & _ & Hmem).
    split; [done|]. split; [by exists tags|]. split; [done|by exists prevPos].
  - split; [done|]. split; [done|]. by exists c.
Qed.

Lemma Path_shapes p k s :
  Path text trie posMap tm p k s →
  Forall (token_shape trie posMap tm) (collectTokens s).
Proof.
  induction 1 as [|idx prevPos prev e nextPos tok sc Hpath IH Hstep]; [constructor|].
  rewrite collectTokens_step. constructor; [by eapply TokenStep_shape|done].
Qed.

(** Every token of a path spans at least one character. *)
Lemma Path_count p k s :
  Path text trie posMap tm p k s → length (collectTokens s) ≤ p.
Proof.
  induction 1 as [|idx prevPos prev e nextPos tok sc Hpath IH Hstep]; [done|].
  rewrite collectTokens_step. simpl. apply TokenStep_range in Hstep. lia.
Qed.

(** The key a state is stored under is empty or a tag of the PosMap. *)
Lemma Path_key p k s :
  Path text trie posMap tm p k s → k = [] ∨ k ∈ allTags posMap.
Proof.
  induction 1 as [|idx prevPos prev e nextPos tok sc Hpath IH Hstep]; [by left|].
  destruct Hstep as [c Hc Hws | c m endIdx tags posTag p Hc Hws Hin Htags Htag Hown Hp | c Hc Hws Hnil];
    try done.
  right. unfold allTags. apply elem_of_list_to_set, elem_of_concat.
  exists tags. split; [done|]. apply list_elem_of_fmap. exists (m, tags).
  split; [done|]. by apply elem_of_map_to_list.
Qed.

End Shapes.

Lemma words_count rm words :
  Forall (word_ok rm) words →
  length words ≤ length (concat (tokens <$> words)) ≤ 2 * length words.
Proof.
  induction 1 as [|w words Hw _ IH]; [simpl; lia|].
  rewrite fmap_cons. cbn [concat]. rewrite length_app, length_cons.
  destruct Hw as [(t & ->)|(t1 & t2 & succs & -> & _)]; cbn [length]; lia.
Qed.

(** The recombiner only groups: the tokens of its words, in order, are the
    tokens it was given, one or two to a word. *)
Theorem recombineTokens_regroups (toks : list Token) (rm : RecombinationMap) :
  concat (tokens <$> recombineTokens toks rm) = toks
  ∧ length (recombineTokens toks rm) ≤ length toks ≤ 2 * length (recombineTokens toks rm).
Proof.
  split; [apply recombineTokens_concat|].
  pose proof (words_count rm _ (recombineTokens_words_ok toks rm)) as H.
  by rewrite recombineTokens_concat in H.
Qed.

(** The rule set does not change the tokens of a segmentation: whenever the
    entry point returns, it returns without rules the same tokens, one per
    word. *)
Theorem segment_rules_regroup (Math_log : float → float) (text : jsstring)
    (trie : Trie) (posMap : PosMap) (tm : TransitionMap) (rm : RecombinationMap)
    (words : list Word) :
  segment Math_log text trie posMap tm rm = Some words →
  segment Math_log text trie posMap tm ∅
  = Some ((λ t, mkWord [t]) <$> concat (tokens <$> words)).
Proof.
  intros (vt & Hf & ->)%segment_forward.
  rewrite (segment_unfold Math_log text trie posMap tm ∅ vt Hf).
  by rewrite recombineTokens_concat, recombineTokens_empty.
Qed.

(** Every token the entry point returns has the shape of its kind: a
    whitespace token is a non-empty run of whitespace with no tag and
    probability 1.0, a skipped token is one non-whitespace character with
    no tag and probability 1e-8, a text token is a morph of the trie with
    one of its tags in the PosMap, which names no property of
    [Object.prototype], and a number of the transition policy. *)
Theorem segment_token_shapes (Math_log : float → float) (text : jsstring)
    (trie : Trie) (posMap : PosMap) (tm : TransitionMap) (rm : RecombinationMap)
    (words : list Word) :
  segment Math_log text trie posMap tm rm = Some words →
  ∀ w t, w ∈ words → t ∈ tokens w → token_shape trie posMap tm t.
Proof.
  intros Hs w t Hw Ht.
  assert (Hin : t ∈ concat (tokens <$> words)).
  { apply elem_of_concat. exists (tokens w). split; [done|].
    apply list_elem_of_fmap. by exists w. }
  destruct (segment_tokens Math_log text trie posMap tm rm words Hs)
    as [Hnil|(k & s & Hpath & Heq)].
  - rewrite Hnil in Hin. by apply elem_of_nil in Hin.
  - rewrite Heq, elem_of_reverse in Hin.
    pose proof (Path_shapes _ _ _ _ _ _ _ Hpath) as Hall.
    rewrite list.Forall_forall in Hall. by apply Hall.
Qed.

(** The entry point returns at most one token per character of the text,
    and between half as many words as tokens and as many. *)
Theorem segment_counts (Math_log : float → float) (text : jsstring)
    (trie : Trie) (posMap : PosMap) (tm : TransitionMap) (rm : RecombinationMap)
    (words : list Word) :
  segment Math_log text trie posMap tm rm = Some words →
  length (concat (tokens <$> words)) ≤ length text
  ∧ length words ≤ length (concat (tokens <$> words)) ≤ 2 * length words.
Proof.
  intros Hs. split.
  - destruct (segment_tokens Math_log text trie posMap tm rm _ Hs)
      as [->|(k & s & Hpath & ->)]; [simpl; lia|].
    rewrite length_reverse. by eapply Path_count.
  - apply segment_forward in Hs as (vt & _ & ->).
    apply words_count with (rm := rm). apply recombineTokens_words_ok.
Qed.

(** The table the forward pass returns has a row per position, and a row
    holds at most one state per key, each key being empty or a tag of the
    PosMap, and none a name of [Object.prototype]: no row holds more states
    than the PosMap has tags, plus one. *)
Theorem forward_state_bound (Math_log : float → float) (text : jsstring)
    (trie : Trie) (posMap : PosMap) (tm : TransitionMap) (vt : Table) :
  forward Math_log text trie posMap tm findMorphsFromTrie = Some vt →
  length vt = length text + 1
  ∧ ∀ i row, vt !! i = Some row →
      NoDup row.*1
      ∧ (∀ k, k ∈ row.*1 → (k = [] ∨ k ∈ allTags posMap) ∧ inherited k = false)
      ∧ length row ≤ 1 + size (allTags posMap).
Proof.
  intros Hf. destruct (forward_TableOk _ _ _ _ _ _ Hf) as [Hlen Hpaths].
  split; [done|]. intros i row Hrow.
  assert (Hnd : NoDup row.*1).
  { eapply Reachable_functional; [|exact Hrow]. by eapply forward_Reachable. }
  assert (Hkeys : ∀ k, k ∈ row.*1 → (k = [] ∨ k ∈ allTags posMap) ∧ inherited k = false).
  { intros k [s Hs]%row_get_is_Some.
    assert (Hpath : Path text trie posMap tm i k s).
    { apply Hpaths. unfold cell. rewrite Hrow. exact Hs. }
    split; [by eapply Path_key|by eapply Path_key_own]. }
  split; [done|]. split; [done|].
  rewrite <- (length_fmap fst row).
  rewrite <- (size_list_to_set (C := gset jsstring) row.*1) by done.
  transitivity (size ({[ [] ]} ∪ allTags posMap : gset jsstring)).
  - apply subseteq_size. intros k Hk%elem_of_list_to_set.
    destruct (Hkeys k Hk) as [[->|?] _]; set_solver.
  - rewrite size_union_alt, size_singleton.
    pose proof (subseteq_size (allTags posMap ∖ {[ [] ]}) (allTags posMap)) as Hsub.
    assert (allTags posMap ∖ {[[]]} ⊆ allTags posMap) by set_solver.
    specialize (Hsub H). lia.
Qed.

(** The forward pass prunes nothing but scores and names of
    [Object.prototype].  It returns exactly when no chain of storable
    proposals (whitespace runs, dictionary matches under a tag of the
    matched morph that names no property of [Object.prototype], one-unit
    skips where nothing matches) leads to a position where the trie emits a
    morph that the PosMap does not own and that names such a property;
    and then the cell of position [p] and tag [k] holds a state exactly
    when some such chain leads from the start of the text to [p] with last
    tag [k]. *)
Theorem forward_paths (Math_log : float → float) (text : jsstring)
    (trie : Trie) (posMap : PosMap) (tm : TransitionMap) :
  (is_Some (forward Math_log text trie posMap tm findMorphsFromTrie)
   ↔ ∀ idx k s, Path text trie posMap tm idx k s → ¬ throwsAt text trie posMap idx)
  ∧ ∀ vt, forward Math_log text trie posMap tm findMorphsFromTrie = Some vt →
      ∀ p k, is_Some (cell vt p k) ↔ ∃ s, Path text trie posMap tm p k s.
Proof.
  split; [apply forward_total|]. intros vt Hf p k.
  by apply (forward_cells Math_log).
Qed.

(** ** Escaping *)

Lemma replaceAll_app c r x y :
  replaceAll c r (x ++ y) = replaceAll c r x ++ replaceAll c r y.
Proof. unfold replaceAll. apply bind_app. Qed.

Lemma replaceAll_single c r x :
  replaceAll c r [x] = if (x =? c)%N then r else [x].
Proof. unfold replaceAll. simpl. by rewrite app_nil_r. Qed.

Lemma escapeHtml_app x y : escapeHtml (x ++ y) = escapeHtml x ++ escapeHtml y.
Proof. unfold escapeHtml. by rewrite !replaceAll_app. Qed.

(** The five passes act on one character as one table lookup: no pass
    rewrites what an earlier pass produced. *)
Lemma escapeHtml_single c : escapeHtml [c] = entity c.
Proof.
  unfold escapeHtml, entity.
  rewrite (replaceAll_single 38). destruct (c =? 38)%N; [reflexivity|].
  rewrite (replaceAll_single 60). destruct (c =? 60)%N; [reflexivity|].
  rewrite (replaceAll_single 62). destruct (c =? 62)%N; [reflexivity|].
  rewrite (replaceAll_single 34). destruct (c =? 34)%N; [reflexivity|].
  rewrite (replaceAll_single 39). by destruct (c =? 39)%N.
Qed.

Lemma escapeHtml_cons c s : escapeHtml (c :: s) = entity c ++ escapeHtml s.
Proof.
  change (c :: s) with ([c] ++ s). by rewrite escapeHtml_app, escapeHtml_single.
Qed.

Lemma escapeHtml_chars s : escapeHtml s = s ≫= entity.
Proof.
  induction s as [|c s IH]; [done|]. rewrite escapeHtml_cons, IH. done.
Qed.

Lemma entity_safe c :
  Forall (λ x, x ≠ 60 ∧ x ≠ 62 ∧ x ≠ 34 ∧ x ≠ 39)%N (entity c).
Proof.
  unfold entity.
  destruct (c =? 38)%N; [by repeat constructor|].
  destruct (N.eqb_spec c 60); [by repeat constructor|].
  destruct (N.eqb_spec c 62); [by repeat constructor|].
  destruct (N.eqb_spec c 34); [by repeat constructor|].
  destruct (N.eqb_spec c 39); [by repeat constructor|].
  by repeat constructor.
Qed.

Lemma entity_cases c :
  (c = 38 ∧ entity c = [38; 97; 109; 112; 59])%N
  ∨ (c = 60 ∧ entity c = [38; 108; 116; 59])%N
  ∨ (c = 62 ∧ entity c = [38; 103; 116; 59])%N
  ∨ (c = 34 ∧ entity c = [38; 113; 117; 111; 116; 59])%N
  ∨ (c = 39 ∧ entity c = [38; 35; 51; 57; 59])%N
  ∨ (c ≠ 38 ∧ entity c = [c])%N.
Proof.
  unfold entity.
  destruct (N.eqb_spec c 38); [by left|].
  destruct (N.eqb_spec c 60); [by right; left|].
  destruct (N.eqb_spec c 62); [by right; right; left|].
  destruct (N.eqb_spec c 34); [by right; right; right; left|].
  destruct (N.eqb_spec c 39); [by right; right; right; right; left|].
  by right; right; right; right; right.
Qed.

(** An escaped character and what follows it determine the character. *)
Lemma entity_prefix c1 c2 r1 r2 :
  entity c1 ++ r1 = entity c2 ++ r2 → c1 = c2 ∧ r1 = r2.
Proof.
  destruct (entity_cases c1) as [[? ->]|[[? ->]|[[? ->]|[[? ->]|[[? ->]|[? ->]]]]]];
  destruct (entity_cases c2) as [[? ->]|[[? ->]|[[? ->]|[[? ->]|[[? ->]|[? ->]]]]]];
  subst; intros Heq; simplify_eq/=; done.
Qed.

(** [escapeHtml] escapes character by character and so distributes over
    concatenation; its result holds none of [<], [>], the double quote and
    the single quote. *)
Theorem escapeHtml_spec (s1 s2 : jsstring) :
  escapeHtml s1 = s1 ≫= entity
  ∧ escapeHtml (s1 ++ s2) = escapeHtml s1 ++ escapeHtml s2
  ∧ Forall (λ x, x ≠ 60 ∧ x ≠ 62 ∧ x ≠ 34 ∧ x ≠ 39)%N (escapeHtml s1).
Proof.
  split; [apply escapeHtml_chars|]. split; [apply escapeHtml_app|].
  induction s1 as [|c s1 IH]; [constructor|].
  rewrite escapeHtml_cons. apply Forall_app. split; [apply entity_safe|done].
Qed.

(** Escaping loses nothing: two strings with the same escaped text are
    equal. *)
Theorem escapeHtml_injective (s1 s2 : jsstring) :
  escapeHtml s1 = escapeHtml s2 → s1 = s2.
Proof.
  revert s2. induction s1 as [|c1 s1 IH]; intros [|c2 s2] Heq.
  - done.
  - rewrite escapeHtml_cons in Heq. exfalso.
    pose proof (entity_prefix c2 c2 (escapeHtml s2) (escapeHtml s2) eq_refl) as _.
    apply (f_equal length) in Heq. rewrite length_app in Heq.
    assert (0 < length (entity c2)); [|simpl in Heq; lia].
    unfold entity. repeat (destruct (_ =? _)%N; [vm_compute; lia|]). simpl. lia.
  - rewrite escapeHtml_cons in Heq. exfalso.
    apply (f_equal length) in Heq. rewrite length_app in Heq.
    assert (0 < length (entity c1)); [|simpl in Heq; lia].
    unfold entity. repeat (destruct (_ =? _)%N; [vm_compute; lia|]). simpl. lia.
  - rewrite !escapeHtml_cons in Heq. apply entity_prefix in Heq as [-> Heq].
    f_equal. by apply IH.
Qed.

(** ** Rendering *)

#[local] Arguments js : simpl never.
#[local] Arguments spanOpen : simpl never.
#[local] Arguments escapeHtml : simpl never.

Lemma escapeHtml_surface ts :
  concat ((λ tok, escapeHtml (morph tok)) <$> ts) = escapeHtml (surface ts).
Proof.
  induction ts as [|t ts IH]; [done|].
  rewrite surface_cons, escapeHtml_app, <- IH. done.
Qed.

(** A word the recombiner emits is rendered without error, as the escaped
    text of all its tokens, bare or in a span. *)
Lemma renderWord_ok userMorphSet rm w :
  word_ok rm w →
  ∃ part, renderWord userMorphSet w = Some (wrapPart part) ∧ part_ok userMorphSet w part.
Proof.
  intros Hw.
  assert (Hfirst : ∃ t, head (tokens w) = Some t
            ∧ (type t ≠ KText → surface (tokens w) = morph t)).
  { destruct Hw as [(t & Ht)|(t1 & t2 & succs & Ht & Ht1 & Ht2 & _)]; rewrite Ht.
    - exists t. split; [done|]. intros _. unfold surface. simpl. by rewrite app_nil_r.
    - exists t1. split; [done|]. by intros []. }
  destruct Hfirst as (t & Hhead & Hbare).
  unfold renderWord. rewrite Hhead. cbn [mbind option_bind].
  rewrite escapeHtml_surface.
  destruct (type t) eqn:Hty.
  - exists (spanOpen (morphKey t) (underlineColor userMorphSet t),
            escapeHtml (surface (tokens w)), js "</span>").
    split; [done|]. split; [done|]. exists t. split; [done|].
    unfold is_text. rewrite Hty. done.
  - exists ([], escapeHtml (surface (tokens w)), []).
    split; [|split; [done|]].
    + unfold wrapPart. cbn [fst snd]. rewrite app_nil_r, Hbare by done. done.
    + exists t. split; [done|]. unfold is_text. rewrite Hty. done.
  - exists ([], escapeHtml (surface (tokens w)), []).
    split; [|split; [done|]].
    + unfold wrapPart. cbn [fst snd]. rewrite app_nil_r, Hbare by done. done.
    + exists t. split; [done|]. unfold is_text. rewrite Hty. done.
Qed.

Lemma renderVisual_ok userMorphSet rm words :
  Forall (word_ok rm) words →
  ∃ parts, renderVisual userMorphSet words = Some (concat (wrapPart <$> parts))
         ∧ Forall2 (part_ok userMorphSet) words parts
         ∧ concat ((λ part, part.1.2) <$> parts)
           = escapeHtml (surface (concat (tokens <$> words))).
Proof.
  unfold renderVisual. induction 1 as [|w words Hw _ (parts & Hr & Hparts & Hbody)].
  - exists []. done.
  - destruct (renderWord_ok userMorphSet rm w Hw) as (part & Hpart & Hok).
    destruct (mapM (renderWord userMorphSet) words) as [pieces|] eqn:Hm;
      simpl in Hr; [|done].
    inversion Hr as [Hpieces]. exists (part :: parts).
    split; [|split].
    + cbn [mapM]. rewrite Hpart. simpl. rewrite Hm. simpl. by rewrite Hpieces.
    + by constructor.
    + rewrite !fmap_cons. cbn [concat]. rewrite Hbody.
      unfold surface. rewrite fmap_app, concat_app, escapeHtml_app.
      f_equal. apply Hok.
Qed.

(** The pipeline of the click on "segment", on a trie and a PosMap built
    from one dictionary in which no morph and no tag names a property of
    [Object.prototype]: building, segmentation and rendering never throw,
    the rendering is the escaped input text cut into words, and a word is
    bare when its first token is whitespace or skipped and wrapped in a
    span with its key and colour otherwise. *)
Theorem renderVisual_segment (Math_log : float → float) (text : jsstring)
    (morphs : list DictEntry) (tm : TransitionMap) (rm : RecombinationMap)
    (userMorphSet : gset jsstring) :
  Forall (λ e, inherited (entry_morph e) = false ∧ inherited (entry_pos e) = false) morphs →
  ∃ posMap words parts,
    buildPosMap morphs = Some posMap
    ∧ segment Math_log text (buildMorphTrie morphs) posMap tm rm = Some words
    ∧ renderVisual userMorphSet words = Some (concat (wrapPart <$> parts))
    ∧ Forall2 (part_ok userMorphSet) words parts
    ∧ concat ((λ part, part.1.2) <$> parts) = escapeHtml text.
Proof.
  intros Hown.
  destruct (dictionary_spells Math_log text morphs tm rm Hown)
    as (posMap & words & Hb & Hs & Hsurf).
  assert (Hok : Forall (word_ok rm) words).
  { apply segment_forward in Hs as (vt & _ & ->). apply recombineTokens_words_ok. }
  destruct (renderVisual_ok userMorphSet rm words Hok) as (parts & Hr & Hparts & Hbody).
  exists posMap, words, parts. split; [done|]. split; [done|]. split; [done|].
  split; [done|]. by rewrite Hbody, Hsurf.
Qed.

(** ** The user morph set *)


Lemma userKey_nonempty m p : nonempty (userKey m p) = true.
Proof. unfold userKey. apply nonempty_true. by destruct m. Qed.

(** A click toggles the key it carries and no other: a second click on the
    same key restores the set, and the underline colour of a word whose
    first token has that key switches. *)
Theorem toggleUserMorph_spec (userMorphSet : gset jsstring) (key : jsstring) :
  toggleUserMorph (toggleUserMorph userMorphSet key) key = userMorphSet
  ∧ (∀ k, k ≠ key → k ∈ toggleUserMorph userMorphSet key ↔ k ∈ userMorphSet)
  ∧ (key ≠ [] → key ∈ toggleUserMorph userMorphSet key ↔ key ∉ userMorphSet)
  ∧ (∀ t, morphKey t = key →
       underlineColor (toggleUserMorph userMorphSet key) t
       = if bool_decide (key ∈ userMorphSet) then js "#ff4673" else js "#B7CECE40").
Proof.
  assert (Hflip : key ≠ [] → key ∈ toggleUserMorph userMorphSet key ↔ key ∉ userMorphSet).
  { intros Hne%nonempty_true. unfold toggleUserMorph. rewrite Hne. simpl.
    case_bool_decide; set_solver. }
  assert (Hother : ∀ k, k ≠ key →
            k ∈ toggleUserMorph userMorphSet key ↔ k ∈ userMorphSet).
  { intros k Hk. unfold toggleUserMorph. destruct (nonempty key); simpl; [|done].
    case_bool_decide; set_solver. }
  split; [|split; [done|split; [done|]]].
  - unfold toggleUserMorph. destruct (nonempty key) eqn:Hne; simpl; [|done].
    destruct (decide (key ∈ userMorphSet)) as [Hin|Hin].
    + rewrite (bool_decide_eq_true_2 (key ∈ userMorphSet)) by done.
      rewrite bool_decide_eq_false_2 by set_solver.
      apply set_eq. intros k. destruct (decide (k = key)); set_solver.
    + rewrite (bool_decide_eq_false_2 (key ∈ userMorphSet)) by done.
      rewrite bool_decide_eq_true_2 by set_solver.
      apply set_eq. intros k. destruct (decide (k = key)); set_solver.
  - intros t <-. unfold underlineColor.
    assert (Hne : morphKey t ≠ []) by (apply nonempty_true, userKey_nonempty).
    specialize (Hflip Hne).
    case_bool_decide as Hin; case_bool_decide as Hin'; try done; tauto.
Qed.



Lemma buildMorphTrie_permutation_witness :
  ex1_dict ≡ₚ ex1_dict_swapped
  ∧ buildMorphTrie ex1_dict = buildMorphTrie ex1_dict_swapped.
Proof.
  assert (Hp : ex1_dict ≡ₚ ex1_dict_swapped) by apply perm_swap.
  split; [exact Hp|]. exact (buildMorphTrie_permutation ex1_dict ex1_dict_swapped Hp).
Defined.

Lemma escapeHtml_injective_witness :
  escapeHtml esc1_text = escapeHtml (js "<a href='x'>R&D</a>" ++ [34%N])
  ∧ esc1_text = js "<a href='x'>R&D</a>" ++ [34%N].
Proof.
  assert (He : escapeHtml esc1_text = escapeHtml (js "<a href='x'>R&D</a>" ++ [34%N]))
    by reflexivity.
  split; [exact He|]. exact (escapeHtml_injective _ _ He).
Defined.

(** ** Further concrete instances *)

Lemma ex1_dict_own :
  Forall (λ e, inherited (entry_morph e) = false ∧ inherited (entry_pos e) = false) ex1_dict.
Proof. repeat constructor. Qed.

(** A trie that holds "constructor" with a PosMap that owns it. *)
Lemma segment_returns_witness :
  (∀ m, trie_mem (buildMorphTrie ctor_morph_dict) m = true → inherited m = true →
        is_Some (ctor_morph_posMap !! m))
  ∧ is_Some (segment Math_log_ref (js "constructor") (buildMorphTrie ctor_morph_dict)
               ctor_morph_posMap ∅ ∅).
Proof.
  assert (H : ∀ m, trie_mem (buildMorphTrie ctor_morph_dict) m = true → inherited m = true →
                   is_Some (ctor_morph_posMap !! m)).
  { intros m [_ Hm]%buildMorphTrie_mem _.
    apply list_elem_of_singleton in Hm as ->. vm_compute. by eexists. }
  split; [exact H|].
  exact (segment_returns Math_log_ref (js "constructor") (buildMorphTrie ctor_morph_dict)
           ctor_morph_posMap ∅ ∅ H).
Defined.

Lemma segment_dictionary_coverage_witness :
  Forall (λ e, inherited (entry_morph e) = false ∧ inherited (entry_pos e) = false) ex1_dict
  ∧ ∃ posMap words,
      buildPosMap ex1_dict = Some posMap
      ∧ segment Math_log_ref ex1_text (buildMorphTrie ex1_dict) posMap ex1_transitions ∅
        = Some words
      ∧ surface (concat (tokens <$> words)) = ex1_text.
Proof.
  split; [exact ex1_dict_own|].
  exact (segment_dictionary_coverage Math_log_ref ex1_text ex1_dict ex1_transitions ∅
           ex1_dict_own).
Defined.

Lemma ex1_covers_own : covers_own ex1_text (buildMorphTrie ex1_dict) ex1_posMap.
Proof.
  apply dictionary_covers_own; [vm_compute; reflexivity|].
  eapply list.Forall_impl; [exact ex1_dict_own|]. by intros e [_ ?].
Qed.

Lemma forward_progress_witness :
  covers_own ex1_text (buildMorphTrie ex1_dict) ex1_posMap
  ∧ ∃ vt, forward Math_log_ref ex1_text (buildMorphTrie ex1_dict) ex1_posMap
            ex1_transitions findMorphsFromTrie = Some vt
        ∧ lastRow ex1_text vt ≠ [].
Proof.
  split; [exact ex1_covers_own|].
  exact (forward_progress Math_log_ref ex1_text (buildMorphTrie ex1_dict) ex1_posMap
           ex1_transitions ex1_covers_own).
Defined.

Lemma insertMorph_idempotent_witness :
  trie_mem (buildMorphTrie ex1_dict) kyou = true
  ∧ insertMorph kyou (buildMorphTrie ex1_dict) = buildMorphTrie ex1_dict.
Proof.
  assert (H : trie_mem (buildMorphTrie ex1_dict) kyou = true) by (vm_compute; reflexivity).
  split; [exact H|]. exact (insertMorph_idempotent kyou (buildMorphTrie ex1_dict) H).
Defined.

Lemma forward_state_bound_witness :
  ∃ vt, forward Math_log_ref ex1_text (buildMorphTrie ex1_dict) ex1_posMap
          ex1_transitions findMorphsFromTrie = Some vt
      ∧ length vt = length ex1_text + 1
      ∧ ∀ i row, vt !! i = Some row →
          NoDup row.*1
          ∧ (∀ k, k ∈ row.*1 → (k = [] ∨ k ∈ allTags ex1_posMap) ∧ inherited k = false)
          ∧ length row ≤ 1 + size (allTags ex1_posMap).
Proof.
  eexists. split; [vm_compute; reflexivity|].
  eapply (forward_state_bound Math_log_ref ex1_text (buildMorphTrie ex1_dict) ex1_posMap
            ex1_transitions).
  vm_compute. reflexivity.
Defined.

Lemma ex1_segment :
  segment Math_log_ref ex1_text (buildMorphTrie ex1_dict) ex1_posMap ex1_transitions ∅
  = Some [mkWord [ex1_token1]; mkWord [ex1_token2]].
Proof. vm_compute. reflexivity. Qed.

Lemma ex3_segment :
  segment Math_log_ref ex3_text (buildMorphTrie ex3_dict) ex3_posMap ex3_transitions ex3_rules
  = Some [mkWord ex3_tokens].
Proof. vm_compute. reflexivity. Qed.

Lemma segment_token_shapes_witness :
  segment Math_log_ref ex1_text (buildMorphTrie ex1_dict) ex1_posMap ex1_transitions ∅
    = Some [mkWord [ex1_token1]; mkWord [ex1_token2]]
  ∧ ∀ w t, w ∈ [mkWord [ex1_token1]; mkWord [ex1_token2]] → t ∈ tokens w →
      token_shape (buildMorphTrie ex1_dict) ex1_posMap ex1_transitions t.
Proof.
  split; [exact ex1_segment|].
  exact (segment_token_shapes Math_log_ref ex1_text (buildMorphTrie ex1_dict) ex1_posMap
           ex1_transitions ∅ _ ex1_segment).
Defined.

Lemma segment_counts_witness :
  segment Math_log_ref ex3_text (buildMorphTrie ex3_dict) ex3_posMap ex3_transitions ex3_rules
    = Some [mkWord ex3_tokens]
  ∧ length (concat (tokens <$> [mkWord ex3_tokens])) ≤ length ex3_text
  ∧ length [mkWord ex3_tokens] ≤ length (concat (tokens <$> [mkWord ex3_tokens]))
      ≤ 2 * length [mkWord ex3_tokens].
Proof.
  split; [exact ex3_segment|].
  exact (segment_counts Math_log_ref ex3_text (buildMorphTrie ex3_dict) ex3_posMap
           ex3_transitions ex3_rules _ ex3_segment).
Defined.

Lemma segment_rules_regroup_witness :
  segment Math_log_ref ex3_text (buildMorphTrie ex3_dict) ex3_posMap ex3_transitions ex3_rules
    = Some [mkWord ex3_tokens]
  ∧ segment Math_log_ref ex3_text (buildMorphTrie ex3_dict) ex3_posMap ex3_transitions ∅
    = Some ((λ t, mkWord [t]) <$> concat (tokens <$> [mkWord ex3_tokens])).
Proof.
  split; [exact ex3_segment|].
  exact (segment_rules_regroup Math_log_ref ex3_text (buildMorphTrie ex3_dict) ex3_posMap
           ex3_transitions ex3_rules _ ex3_segment).
Defined.

Lemma renderVisual_segment_witness :
  Forall (λ e, inherited (entry_morph e) = false ∧ inherited (entry_pos e) = false) ex1_dict
  ∧ ∃ posMap words parts,
      buildPosMap ex1_dict = Some posMap
      ∧ segment Math_log_ref ex1_text (buildMorphTrie ex1_dict) posMap ex1_transitions ∅
        = Some words
      ∧ renderVisual (userMorphKeys user1_morphs) words = Some (concat (wrapPart <$> parts))
      ∧ Forall2 (part_ok (userMorphKeys user1_morphs)) words parts
      ∧ concat ((λ part, part.1.2) <$> parts) = escapeHtml ex1_text.
Proof.
  split; [exact ex1_dict_own|].
  exact (renderVisual_segment Math_log_ref ex1_text ex1_dict ex1_transitions ∅
           (userMorphKeys user1_morphs) ex1_dict_own).
Defined.
